(** * WhyCry: a shallow embedding of [py3/whycry.py]

    The cipher class of the repository is modelled method by method.
    Python values are modelled as follows:
    - a [str] is the list of its Unicode code points ([pystr]);
    - an [int] is a [Z]; a list of ints is a [list Z];
    - an instance of [WhyCry] is a record of its four attributes, threaded
      through the methods by an exception-and-state monad [M];
    - a call of [random()] consumes one element of a finite tape of
      rationals in [0, 1) handed to the method that draws. *)

From Stdlib Require Import String Ascii ZArith NArith QArith Bool Lia List.
Import ListNotations.
Open Scope Z_scope.

(** ** Python values *)

(** A Python string: its code points in order. *)
Definition pystr : Type := list N.

(** An ASCII literal as a Python string. *)
Fixpoint str (s : string) : pystr :=
  match s with
  | EmptyString => []
  | String a s' => N_of_ascii a :: str s'
  end.

(** The exceptions the class can raise. *)
Inductive exn : Type :=
| KeyError
| ValueError
| ZeroDivisionError
| IndexError
| AssertionError
| AttributeError
| UnicodeEncodeError
| OverflowError.

(** How a call ends: it returns, it raises, or the tape of random draws
    handed to it is used up before the rejection loop has accepted a draw
    ([Starved]: the Python program would go on drawing). *)
Inductive outcome (A : Type) : Type :=
| Ok (a : A)
| Raise (e : exn)
| Starved.
Arguments Ok {A} a.
Arguments Raise {A} e.
Arguments Starved {A}.

(** [len(l)]. *)
Definition len {A : Type} (l : list A) : Z := Z.of_nat (length l).

(** [l[i]] with Python's negative indices; [None] stands for IndexError. *)
Definition getitem {A : Type} (l : list A) (i : Z) : option A :=
  if (0 <=? i) && (i <? len l) then nth_error l (Z.to_nat i)
  else if (- len l <=? i) && (i <? 0) then nth_error l (Z.to_nat (i + len l))
  else None.

(** [s * r] on lists: [r] copies of [s], none when [r <= 0]. *)
Definition list_mul {A : Type} (s : list A) (r : Z) : list A :=
  concat (repeat s (Z.to_nat r)).

(** [map(f, t, k)]: stops with the shorter argument. *)
Fixpoint map2 {A B C : Type} (f : A -> B -> C) (t : list A) (k : list B) : list C :=
  match t, k with
  | x :: t', y :: k' => f x y :: map2 f t' k'
  | _, _ => []
  end.

(** [str.index]: the position of the first occurrence of a character;
    [None] stands for ValueError. *)
Fixpoint index (d : pystr) (ch : N) : option Z :=
  match d with
  | [] => None
  | x :: d' => if N.eqb x ch then Some 0 else option_map Z.succ (index d' ch)
  end.

(** [float * int] first converts the int to a double, rounding to nearest:
    the conversion is defined when [|n| < 2^1024 - 2^970] and raises
    OverflowError ("int too large to convert to float") from there on,
    whatever the float is. *)
Definition float_of_int_ok (n : Z) : bool := Z.abs n <? 2 ^ 1024 - 2 ^ 970.

(** [int(u * m)] for a draw [u] of [random()] and an int [m] that converts
    to a double: the product truncated toward zero.  The draw is a rational
    and the product is exact, where Python rounds [m] and the product to
    doubles; the rounding can move a value by one (when the exact product
    lies just below an integer), and for [0 < m] it keeps the result inside
    the same range [0, m), so that every value Python computes is the value
    of the model at some draw. *)
Definition int_mul (u : Q) (m : Z) : Z := Z.quot (Qnum u * m) (Z.pos (Qden u)).

(** A value [random()] can return: [0 <= u < 1]. *)
Definition unit_draw (u : Q) : Prop := (0 <= Qnum u < Z.pos (Qden u))%Z.

(** [s.encode('utf-8')]; [None] stands for UnicodeEncodeError (a lone
    surrogate). *)
Definition utf8_char (c : N) : option (list N) :=
  (if c <? 128 then Some [c]
   else if c <? 2048 then Some [192 + c / 64; 128 + c mod 64]
   else if (55296 <=? c) && (c <? 57344) then None
   else if c <? 65536 then Some [224 + c / 4096; 128 + (c / 64) mod 64; 128 + c mod 64]
   else if c <? 1114112 then
     Some [240 + c / 262144; 128 + (c / 4096) mod 64; 128 + (c / 64) mod 64; 128 + c mod 64]
   else None)%N.

Fixpoint utf8_encode (s : pystr) : option (list N) :=
  match s with
  | [] => Some []
  | c :: s' =>
      match utf8_char c, utf8_encode s' with
      | Some b, Some bs => Some (b ++ bs)
      | _, _ => None
      end
  end.

(** ** hashlib.sha512

    The digest of FIPS 180-4 over a list of bytes, on 64-bit words held
    in [N]. *)
Module SHA512.

Local Open Scope N_scope.

Definition w64 : N := 2 ^ 64.
Definition add64 (x y : N) : N := (x + y) mod w64.
Definition rotr (n x : N) : N := N.lor (N.shiftr x n) (N.shiftl x (64 - n) mod w64).
Definition shr (n x : N) : N := N.shiftr x n.
Definition not64 (x : N) : N := N.lxor x (w64 - 1).
Definition xor3 (x y z : N) : N := N.lxor (N.lxor x y) z.

Definition Ch (x y z : N) : N := N.lxor (N.land x y) (N.land (not64 x) z).
Definition Maj (x y z : N) : N := xor3 (N.land x y) (N.land x z) (N.land y z).
Definition Sigma0 (x : N) : N := xor3 (rotr 28 x) (rotr 34 x) (rotr 39 x).
Definition Sigma1 (x : N) : N := xor3 (rotr 14 x) (rotr 18 x) (rotr 41 x).
Definition sigma0 (x : N) : N := xor3 (rotr 1 x) (rotr 8 x) (shr 7 x).
Definition sigma1 (x : N) : N := xor3 (rotr 19 x) (rotr 61 x) (shr 6 x).

Definition K : list N :=
  [ 0x428a2f98d728ae22; 0x7137449123ef65cd; 0xb5c0fbcfec4d3b2f; 0xe9b5dba58189dbbc;
    0x3956c25bf348b538; 0x59f111f1b605d019; 0x923f82a4af194f9b; 0xab1c5ed5da6d8118;
    0xd807aa98a3030242; 0x12835b0145706fbe; 0x243185be4ee4b28c; 0x550c7dc3d5ffb4e2;
    0x72be5d74f27b896f; 0x80deb1fe3b1696b1; 0x9bdc06a725c71235; 0xc19bf174cf692694;
    0xe49b69c19ef14ad2; 0xefbe4786384f25e3; 0x0fc19dc68b8cd5b5; 0x240ca1cc77ac9c65;
    0x2de92c6f592b0275; 0x4a7484aa6ea6e483; 0x5cb0a9dcbd41fbd4; 0x76f988da831153b5;
    0x983e5152ee66dfab; 0xa831c66d2db43210; 0xb00327c898fb213f; 0xbf597fc7beef0ee4;
    0xc6e00bf33da88fc2; 0xd5a79147930aa725; 0x06ca6351e003826f; 0x142929670a0e6e70;
    0x27b70a8546d22ffc; 0x2e1b21385c26c926; 0x4d2c6dfc5ac42aed; 0x53380d139d95b3df;
    0x650a73548baf63de; 0x766a0abb3c77b2a8; 0x81c2c92e47edaee6; 0x92722c851482353b;
    0xa2bfe8a14cf10364; 0xa81a664bbc423001; 0xc24b8b70d0f89791; 0xc76c51a30654be30;
    0xd192e819d6ef5218; 0xd69906245565a910; 0xf40e35855771202a; 0x106aa07032bbd1b8;
    0x19a4c116b8d2d0c8; 0x1e376c085141ab53; 0x2748774cdf8eeb99; 0x34b0bcb5e19b48a8;
    0x391c0cb3c5c95a63; 0x4ed8aa4ae3418acb; 0x5b9cca4f7763e373; 0x682e6ff3d6b2b8a3;
    0x748f82ee5defb2fc; 0x78a5636f43172f60; 0x84c87814a1f0ab72; 0x8cc702081a6439ec;
    0x90befffa23631e28; 0xa4506cebde82bde9; 0xbef9a3f7b2c67915; 0xc67178f2e372532b;
    0xca273eceea26619c; 0xd186b8c721c0c207; 0xeada7dd6cde0eb1e; 0xf57d4f7fee6ed178;
    0x06f067aa72176fba; 0x0a637dc5a2c898a6; 0x113f9804bef90dae; 0x1b710b35131c471b;
    0x28db77f523047d84; 0x32caab7b40c72493; 0x3c9ebe0a15c9bebc; 0x431d67c49c100d4c;
    0x4cc5d4becb3e42b6; 0x597f299cfc657e2a; 0x5fcb6fab3ad6faec; 0x6c44198c4a475817 ].

Definition H0 : list N :=
  [ 0x6a09e667f3bcc908; 0xbb67ae8584caa73b; 0x3c6ef372fe94f82b; 0xa54ff53a5f1d36f1;
    0x510e527fade682d1; 0x9b05688c2b3e6c1f; 0x1f83d9abfb41bd6b; 0x5be0cd19137e2179 ].

(** [n] bytes of [v], most significant first. *)
Fixpoint be_bytes (n : nat) (v : N) : list N :=
  match n with
  | O => []
  | S n' => be_bytes n' (v / 256) ++ [v mod 256]
  end.

Definition be_word (bs : list N) : N := fold_left (fun a b => a * 256 + b) bs 0.

(** The message, a 1 bit, zeros up to 112 modulo 128 bytes, and the length
    in bits on 16 bytes. *)
Definition pad (msg : list N) : list N :=
  let l := N.of_nat (length msg) in
  let k := (128 - (l + 17) mod 128) mod 128 in
  msg ++ [128] ++ repeat 0 (N.to_nat k) ++ be_bytes 16 (8 * l).

Fixpoint chunks {A : Type} (k fuel : nat) (l : list A) : list (list A) :=
  match fuel, l with
  | S f, _ :: _ => firstn k l :: chunks k f (skipn k l)
  | _, _ => []
  end.

(** The message schedule, latest word first: [w] holds W[t-1], W[t-2], ... *)
Fixpoint schedule (n : nat) (w : list N) : list N :=
  match n with
  | O => w
  | S n' =>
      let wt := add64 (add64 (sigma1 (nth 1 w 0)) (nth 6 w 0))
                      (add64 (sigma0 (nth 14 w 0)) (nth 15 w 0)) in
      schedule n' (wt :: w)
  end.

Record regs : Type :=
  { ra : N; rb : N; rc : N; rd : N; re : N; rf : N; rg : N; rh : N }.

Definition round (r : regs) (kw : N * N) : regs :=
  let t1 := add64 (add64 (add64 (rh r) (Sigma1 (re r)))
                         (add64 (Ch (re r) (rf r) (rg r)) (fst kw))) (snd kw) in
  let t2 := add64 (Sigma0 (ra r)) (Maj (ra r) (rb r) (rc r)) in
  {| ra := add64 t1 t2; rb := ra r; rc := rb r; rd := rc r;
     re := add64 (rd r) t1; rf := re r; rg := rf r; rh := rg r |}.

Definition regs_of (h : list N) : regs :=
  {| ra := nth 0 h 0; rb := nth 1 h 0; rc := nth 2 h 0; rd := nth 3 h 0;
     re := nth 4 h 0; rf := nth 5 h 0; rg := nth 6 h 0; rh := nth 7 h 0 |}.

Definition list_of (r : regs) : list N :=
  [ra r; rb r; rc r; rd r; re r; rf r; rg r; rh r].

Definition compress (h : list N) (block : list N) : list N :=
  let w := rev (schedule 64 (rev (map be_word (chunks 8 16 block)))) in
  let r := fold_left round (combine K w) (regs_of h) in
  map2 add64 h (list_of r).

Definition digest (msg : list N) : list N :=
  let m := pad msg in
  fold_left compress (chunks 128 (length m) m) H0.

Definition hex_digit (n : N) : N := nth (N.to_nat n) (str "0123456789abcdef") 0.

Fixpoint hex_word (n : nat) (v : N) : pystr :=
  match n with
  | O => []
  | S n' => hex_word n' (v / 16) ++ [hex_digit (v mod 16)]
  end.

(** [sha512(msg).hexdigest()]. *)
Definition hexdigest (msg : list N) : pystr := flat_map (hex_word 16) (digest msg).

End SHA512.

(** ** The alphabets *)

Definition SPACE : pystr := str " ".
Definition NUM : pystr := str "0123456789".
Definition HEX : pystr := NUM ++ str "abcdef".
Definition ALPHANUM : pystr :=
  HEX ++ str "ghijklmnopqrstuvwxyzABCDEFGHIJKLMNOPQRSTUVWXYZ".
(** The punctuation of the source literal; 34 is the double quote. *)
Definition ASCII_NOSPACE : pystr :=
  ALPHANUM ++ str "!" ++ [34%N] ++ str "#$%&'()*+,-./:;<=>?@[\]^_`{|}~".
Definition ASCII : pystr := SPACE ++ ASCII_NOSPACE.
(** The 127 characters the source literal adds, by code point: U+007F, the
    printable characters of Windows-1252 from U+20AC with the five C1
    controls U+0081, U+008D, U+008F, U+0090 and U+009D left where the
    literal has them, then U+00A1 to U+00FF without U+00AD. *)
Definition ASCIIEXT_NOSPACE : pystr :=
  ASCII_NOSPACE ++
  [ 127; 8364; 129; 8218; 402; 8222; 8230; 8224; 8225; 710; 8240; 352; 8249;
    338; 141; 381; 143; 144; 8216; 8217; 8220; 8221; 8226; 8211; 8212; 732;
    8482; 353; 8250; 339; 157; 382; 376; 161; 162; 163; 164; 165; 166; 167;
    168; 169; 170; 171; 172; 174; 175; 176; 177; 178; 179; 180; 181; 182; 183;
    184; 185; 186; 187; 188; 189; 190; 191; 192; 193; 194; 195; 196; 197; 198;
    199; 200; 201; 202; 203; 204; 205; 206; 207; 208; 209; 210; 211; 212; 213;
    214; 215; 216; 217; 218; 219; 220; 221; 222; 223; 224; 225; 226; 227; 228;
    229; 230; 231; 232; 233; 234; 235; 236; 237; 238; 239; 240; 241; 242; 243;
    244; 245; 246; 247; 248; 249; 250; 251; 252; 253; 254; 255 ]%N.
Definition ASCIIEXT : pystr := SPACE ++ ASCIIEXT_NOSPACE.
Definition MAIL : pystr := str "abcdefghijklmnopqrstuvwxyz0123456789@.-_+".

(** ** The class *)

(** [WhyCry.DIZ], the common dictionary. *)
Definition DIZ : list (string * pystr) :=
  [ ("num", NUM);
    ("hex", HEX);
    ("alphanum", ALPHANUM);
    ("ascii_nospace", ASCII_NOSPACE);
    ("ascii", ASCII);
    ("asciiext_nospace", ASCIIEXT_NOSPACE);
    ("asciiext", ASCIIEXT);
    ("mail", MAIL) ]%string.

(** [DIZ[name]]; [None] stands for KeyError. *)
Fixpoint lookup (diz : list (string * pystr)) (name : string) : option pystr :=
  match diz with
  | [] => None
  | (k, v) :: diz' => if String.eqb k name then Some v else lookup diz' name
  end.

(** An instance: its attributes.  [text] is absent until a method has
    assigned it, [signature] is [None] until one has been requested. *)
Record WhyCry : Type :=
  { dictionary : pystr;
    secretkey : list Z;
    text : option (list Z);
    signature : option pystr }.

(** The instance after an assignment to one attribute. *)
Definition set_text (t : list Z) (c : WhyCry) : WhyCry :=
  {| dictionary := dictionary c; secretkey := secretkey c;
     text := Some t; signature := signature c |}.

Definition set_signature (s : pystr) (c : WhyCry) : WhyCry :=
  {| dictionary := dictionary c; secretkey := secretkey c;
     text := text c; signature := Some s |}.

(** A method body: it reads and updates the instance and ends in an
    [outcome]; the instance is kept as it stands when an exception leaves
    the method. *)
Definition M (A : Type) : Type := WhyCry -> outcome A * WhyCry.

(** [return a], [raise e], and one statement after another. *)
Definition ret {A : Type} (a : A) : M A := fun c => (Ok a, c).

Definition raise {A : Type} (e : exn) : M A := fun c => (Raise e, c).

Definition bind {A B : Type} (m : M A) (k : A -> M B) : M B :=
  fun c =>
    match m c with
    | (Ok a, c') => k a c'
    | (Raise e, c') => (Raise e, c')
    | (Starved, c') => (Starved, c')
    end.

Notation "x <- m ;; k" := (bind m (fun x => k))
  (at level 61, m at next level, right associativity).
Notation "m ;;; k" := (bind m (fun _ => k))
  (at level 61, right associativity).

(** Reading [self.text]. *)
Definition get_text : M (list Z) :=
  fun c => match text c with
           | Some t => (Ok t, c)
           | None => (Raise AttributeError, c)
           end.

(** [self.text = t] and [self.signature = s]. *)
Definition assign_text (t : list Z) : M unit := fun c => (Ok tt, set_text t c).
Definition assign_signature (s : pystr) : M unit :=
  fun c => (Ok tt, set_signature s c).

(** [[f(char) for char in string]] with [f = dictionary.index]. *)
Fixpoint indices (d : pystr) (s : pystr) : option (list Z) :=
  match s with
  | [] => Some []
  | ch :: s' =>
      match index d ch with
      | None => None
      | Some i =>
          match indices d s' with
          | None => None
          | Some l => Some (i :: l)
          end
      end
  end.

Definition _build_input (string : pystr) : M (list Z) :=
  fun c => match indices (dictionary c) string with
           | Some l => (Ok l, c)
           | None => (Raise ValueError, c)
           end.

(** [__init__]: the new instance, or the exception that leaves none. *)
Definition __init__ (dictionary : string) (secretkey : pystr) : outcome WhyCry :=
  match lookup DIZ dictionary with
  | None => Raise KeyError
  | Some d =>
      match indices d secretkey with
      | None => Raise ValueError
      | Some k =>
          Ok {| dictionary := d; secretkey := k; text := None; signature := None |}
      end
  end.

(** The two comprehensions of [_translate]. *)
Definition wrap_add (d x : Z) : Z := if x <? d then x else x - d.
Definition wrap_sub (d x : Z) : Z := if x >? -1 then x else x + d.

Definition _translate (mode : bool) : M unit :=
  t <- get_text ;;
  fun c =>
    let s := secretkey c in
    let d := len (dictionary c) in
    if len s =? 0 then (Raise ZeroDivisionError, c)
    else
      let r := len t / len s + 1 in
      if mode then assign_text (map (wrap_add d) (map2 Z.add t (list_mul s r))) c
      else assign_text (map (wrap_sub d) (map2 Z.sub t (list_mul s r))) c.

(** The rejection loop of [_wide]: [c1 = c2 = t[-1]], then draw
    [int(r() * max)] while [c1 == c2].  It returns the accepted draw and
    the rest of the tape, or [None] when the tape ends first. *)
Fixpoint redraw (max c2 : Z) (draws : list Q) : option (Z * list Q) :=
  match draws with
  | [] => None
  | u :: rest =>
      let c1 := int_mul u max in
      if c1 =? c2 then redraw max c2 rest else Some (c1, rest)
  end.

(** [for _ in range(s)]: append [s] accepted draws to [t].  The buffer
    reached is returned with the rest of the tape ([None]: tape used up). *)
Fixpoint disturb (max : Z) (s : nat) (t : list Z) (draws : list Q)
  : list Z * option (list Q) :=
  match s with
  | O => (t, Some draws)
  | S s' =>
      match redraw max (last t 0) draws with
      | None => (t, None)
      | Some (c1, rest) => disturb max s' (t ++ [c1]) rest
      end
  end.

(** [for s in (cside, cadd - cside)]: append, then reverse, for each part. *)
Fixpoint parts (max : Z) (ss : list Z) (t : list Z) (draws : list Q)
  : list Z * option (list Q) :=
  match ss with
  | [] => (t, Some draws)
  | s :: ss' =>
      match disturb max (Z.to_nat s) t draws with
      | (t', None) => (t', None)
      | (t', Some rest) => parts max ss' (rev t') rest
      end
  end.

(** The inner [for x in range(len(t) - 1)] of the unpadding branch: the
    first [x] with [t[x] == t[x + 1]], or [None] when the loop runs to its
    [else]. *)
Fixpoint scan (t : list Z) : option nat :=
  match t with
  | a :: (b :: _) as t' => if a =? b then Some O else option_map S (scan t')
  | _ => None
  end.

(** One turn of [for m in range(2)]: [t = t[x + 1:]], then [t.reverse()];
    [None] when the scan found no pair. *)
Definition unwide_pass (t : list Z) : option (list Z) :=
  match scan t with
  | Some x => Some (rev (skipn (S x) t))
  | None => None
  end.

(** [for m in range(n)] over the passes; [None] when a pass found no pair. *)
Fixpoint unwide_passes (n : nat) (t : list Z) : option (list Z) :=
  match n with
  | O => Some t
  | S n' =>
      match unwide_pass t with
      | Some t' => unwide_passes n' t'
      | None => None
      end
  end.

(** [_wide].  With [mode] set, the buffer gets its two markers
    ([t.insert(0, t[0])], IndexError on the empty buffer, and
    [t.append(t[-1])]), [cadd] and the split [cside] are computed, and the
    two parts are appended; the list is updated in place, so the buffer
    reached is the instance's when the tape ends or an exception leaves.
    [r() * cadd] raises OverflowError when [cadd] does not convert to a
    double, whatever [r()] has returned, so that case needs no draw.
    [max] is the length of a string less one, below 2^63, and always
    converts.  Without [mode], the two
    passes run on slices, and [self.text] is assigned at the end: the
    result of the passes, or the empty list when a pass found no pair.
    The buffer is never empty where [t[-1]] is read, so [last t 0] is its
    last element. *)
Definition _wide (draws : list Q) (mode : bool) (lenght : Z) : M unit :=
  t <- get_text ;;
  if mode then
    match t with
    | [] => raise IndexError
    | t0 :: _ =>
        fun c =>
          let t := t0 :: t in
          let t := t ++ [last t 0] in
          let cadd := lenght - len t in
          if float_of_int_ok cadd then
            match draws with
            | [] => (Starved, set_text t c)
            | u :: draws =>
                let cside := int_mul u cadd in
                let max := len (dictionary c) - 1 in
                match parts max [cside; cadd - cside] t draws with
                | (t, None) => (Starved, set_text t c)
                | (t, Some _) => (Ok tt, set_text t c)
                end
            end
          else (Raise OverflowError, set_text t c)
    end
  else
    match unwide_passes 2 t with
    | None => assign_text []
    | Some t => assign_text t
    end.

(** [''.join([f[x] for x in self.text])]. *)
Fixpoint chars (d : pystr) (t : list Z) : option pystr :=
  match t with
  | [] => Some []
  | x :: t' =>
      match getitem d x with
      | None => None
      | Some ch =>
          match chars d t' with
          | None => None
          | Some s => Some (ch :: s)
          end
      end
  end.

Definition _output : M pystr :=
  t <- get_text ;;
  fun c => match chars (dictionary c) t with
           | Some s => (Ok s, c)
           | None => (Raise IndexError, c)
           end.

(** [_sign]: the hex digest of the UTF-8 bytes of [s]. *)
Definition _sign (s : pystr) : M pystr :=
  match utf8_encode s with
  | Some bytes => ret (SHA512.hexdigest bytes)
  | None => raise UnicodeEncodeError
  end.

(** The public methods.  [wencode] takes the tape of the values [random()]
    returns during the call. *)
Definition encode (text : pystr) (mode : bool) (create_signature : bool) : M pystr :=
  t <- _build_input text ;;
  assign_text t ;;;
  _translate mode ;;;
  (if create_signature then s <- _sign text ;; assign_signature s else ret tt) ;;;
  _output.

Definition decode (text : pystr) : M pystr := encode text false false.

Definition wencode (draws : list Q) (text : pystr) (lenght : Z)
    (create_signature : bool) : M pystr :=
  if lenght >? len text + 2 then
    t <- _build_input text ;;
    assign_text t ;;;
    _wide draws true lenght ;;;
    _translate true ;;;
    (if create_signature then s <- _sign text ;; assign_signature s else ret tt) ;;;
    _output
  else raise AssertionError.

Definition wdecode (text : pystr) : M pystr :=
  t <- _build_input text ;;
  assign_text t ;;;
  _translate false ;;;
  _wide [] false 0 ;;;
  _output.

(** [==] on strings. *)
Definition pystr_eqb (a b : pystr) : bool :=
  if list_eq_dec N.eq_dec a b then true else false.

Definition verify (signature : pystr) : M bool :=
  out <- _output ;;
  digest <- _sign out ;;
  ret (pystr_eqb signature digest).

(** ** Sample instances *)

Definition num137 : WhyCry :=
  {| dictionary := NUM; secretkey := [1; 3; 7]; text := None; signature := None |}.

Definition num1 : WhyCry :=
  {| dictionary := NUM; secretkey := [1]; text := None; signature := None |}.

Definition num2 : WhyCry :=
  {| dictionary := NUM; secretkey := [2]; text := None; signature := None |}.

(** ** Notions the statements use *)

(** An index into an alphabet of size [d]. *)
Definition in_range (d x : Z) : Prop := 0 <= x < d.

(** The buffer [_translate] assigns, as a function of the old buffer. *)
Definition translated (mode : bool) (d : Z) (s t : list Z) : list Z :=
  let r := len t / len s + 1 in
  if mode then map (wrap_add d) (map2 Z.add t (list_mul s r))
  else map (wrap_sub d) (map2 Z.sub t (list_mul s r)).

(** The padded buffer: the payload between its two markers, a run on each
    side. *)
Definition padded (d2 p d1 : list Z) : list Z :=
  rev d2 ++ hd 0 p :: p ++ last p 0 :: d1.

(** The buffer [_wide] leaves in its unpadding branch. *)
Definition unwide (t : list Z) : list Z :=
  match unwide_passes 2 t with
  | Some t' => t'
  | None => []
  end.

(** A draw the rejection loop accepts at once after [c2]: it scales to 1
    when [c2] is 0 and to 0 otherwise. *)
Definition accepted_draw (max c2 : Z) : Q :=
  (if c2 =? 0 then 1 else 0) # Z.to_pos max.

(** An instance is what [__init__] has built, whatever calls have since
    assigned to its [text] and [signature]. *)
Definition is_instance (c : WhyCry) : Prop :=
  exists name key c0,
    __init__ name key = Ok c0 /\
    dictionary c = dictionary c0 /\ secretkey c = secretkey c0.

(** The checks run once over the registered alphabets: no duplicate, only
    characters that UTF-8 encodes, at least three characters. *)
Fixpoint nodupb (l : pystr) : bool :=
  match l with
  | [] => true
  | x :: r => negb (existsb (N.eqb x) r) && nodupb r
  end.

Definition scalarb (ch : N) : bool :=
  match utf8_char ch with Some _ => true | None => false end.

Definition alphabet_ok (d : pystr) : bool :=
  nodupb d && forallb scalarb d && (3 <=? len d).

(** What the methods rely on: an alphabet without duplicates, of at least
    three characters that UTF-8 encodes, and key indices inside it. *)
Record wf (c : WhyCry) : Prop :=
  { wf_nodup : NoDup (dictionary c);
    wf_scalar : Forall (fun ch => scalarb ch = true) (dictionary c);
    wf_size : 3 <= len (dictionary c);
    wf_key : Forall (in_range (len (dictionary c))) (secretkey c) }.

(** A method body that never assigns [signature]. *)
Definition keeps_signature {A : Type} (m : M A) : Prop :=
  forall c, signature (snd (m c)) = signature c.

(** Membership of the characters of a literal in a concrete alphabet. *)
Ltac in_alphabet :=
  repeat (first [apply Forall_nil | apply Forall_cons]);
  cbv; repeat (first [left; reflexivity | right]).

(** [WhyCry.token], the static method: [length] characters of the named
    alphabet, each at the position [randbelow(n)] returns.  [rand i] is the
    value the call number [i] of [randbelow] returns; [range(length)] is
    empty for a negative [length]. *)
Definition token (rand : nat -> Z) (dictionary : string) (length : Z)
  : outcome pystr :=
  match lookup DIZ dictionary with
  | None => Raise KeyError
  | Some d =>
      match chars d (map rand (seq 0 (Z.to_nat length))) with
      | Some s => Ok s
      | None => Raise IndexError
      end
  end.

(** A method body that assigns neither [dictionary] nor [secretkey]. *)
Definition keeps_config {A : Type} (m : M A) : Prop :=
  forall c,
    dictionary (snd (m c)) = dictionary c /\ secretkey (snd (m c)) = secretkey c.

(** * Properties *)

(** ** Worked runs *)

Example sha512_abc :
  SHA512.hexdigest (str "abc") =
  str "ddaf35a193617abacc417349ae20413112e6fa4e89a97ea20a9eeee64b55d39a2192992a274fc1a836ba3c23a3feebbd454d4423643ce80e2a9ac94fa54ca49f".
Proof. vm_compute. reflexivity. Qed.

Example sha512_empty :
  SHA512.hexdigest [] =
  str "cf83e1357eefb8bdf1542850d66d8007d620e4050b5715dc83f4a921d36ce9ce47d0d13c5d85f2b0ff8318d2877eec2f63b931bd47417a81a538327af927da3e".
Proof. vm_compute. reflexivity. Qed.

Example sha512_two_blocks :
  SHA512.hexdigest (repeat 97%N 200) =
  str "4b11459c33f52a22ee8236782714c150a3b2c60994e9acee17fe68947a3e6789f31e7668394592da7bef827cddca88c4e6f86e4df7ed1ae6cba71f3e98faee9f".
Proof. vm_compute. reflexivity. Qed.

Example init_num137 : __init__ "num" (str "137") = Ok num137.
Proof. reflexivity. Qed.

Example encode_582 : fst (encode (str "582") true false num137) = Ok (str "619").
Proof. vm_compute. reflexivity. Qed.

(** Padding "582" to length 9: the split draw 1/2 puts two disturbance
    indices after the payload ([0], [4]) and two before it ([4], [0]); the
    buffer [0; 4; 5; 5; 8; 2; 2; 0; 4] is then transformed. *)
Example wencode_582 :
  fst (wencode [1 # 2; 0 # 1; 4 # 9; 4 # 9; 0 # 1] (str "582") 9 false num137) =
  Ok (str "172619331").
Proof. vm_compute. reflexivity. Qed.

Example wdecode_582 :
  fst (wdecode (str "172619331") num137) = Ok (str "582").
Proof. vm_compute. reflexivity. Qed.

(** A draw equal to the buffer's last element is drawn again: 5/9 gives 5,
    the last element, and is rejected; 4/9 gives 4. *)
Example redraw_rejects : redraw 9 5 [5 # 9; 4 # 9; 1 # 9] = Some (4, [1 # 9]).
Proof. reflexivity. Qed.

(** The run of the repository's self-test: encode with a signature, decode,
    verify. *)
Example encode_decode_verify :
  let c1 := snd (encode (str "582") true true num137) in
  let c2 := snd (decode (str "619") c1) in
  signature c1 = Some (SHA512.hexdigest (str "582")) /\
  fst (verify (SHA512.hexdigest (str "582")) c2) = Ok true /\
  fst (verify (SHA512.hexdigest (str "583")) c2) = Ok false.
Proof. vm_compute. repeat split. Qed.

(** A wrong key with the same text length: [wdecode] finds no pair and
    returns the empty string. *)
Example wdecode_wrong_key :
  fst (wdecode (str "172619331")
         {| dictionary := NUM; secretkey := [1; 3; 6]; text := None;
            signature := None |}) = Ok [].
Proof. vm_compute. reflexivity. Qed.

(** ** Indices and characters *)

Lemma len_nonneg {A : Type} (l : list A) : 0 <= len l.
Proof. unfold len. lia. Qed.

Lemma len_cons {A : Type} (x : A) (l : list A) : len (x :: l) = len l + 1.
Proof. unfold len. simpl length. lia. Qed.

Lemma len_app {A : Type} (l1 l2 : list A) : len (l1 ++ l2) = len l1 + len l2.
Proof. unfold len. rewrite length_app. lia. Qed.

Lemma len_nil_iff {A : Type} (l : list A) : len l = 0 <-> l = [].
Proof.
  destruct l as [|x l]; split; intro H; try reflexivity; discriminate.
Qed.

Lemma getitem_cons_succ {A : Type} (x : A) (l : list A) (i : Z) :
  0 <= i < len l -> getitem (x :: l) (Z.succ i) = getitem l i.
Proof.
  intros Hi. unfold getitem. rewrite len_cons.
  replace (0 <=? Z.succ i) with true by (symmetry; apply Z.leb_le; lia).
  replace (Z.succ i <? len l + 1) with true by (symmetry; apply Z.ltb_lt; lia).
  replace (0 <=? i) with true by (symmetry; apply Z.leb_le; lia).
  replace (i <? len l) with true by (symmetry; apply Z.ltb_lt; lia).
  simpl andb. cbv iota.
  rewrite Z2Nat.inj_succ by lia. reflexivity.
Qed.

Lemma getitem_cons_zero {A : Type} (x : A) (l : list A) :
  getitem (x :: l) 0 = Some x.
Proof.
  unfold getitem. rewrite len_cons. pose proof (len_nonneg l).
  replace (0 <? len l + 1) with true by (symmetry; apply Z.ltb_lt; lia).
  reflexivity.
Qed.

Lemma index_range (d : pystr) (ch : N) (i : Z) :
  index d ch = Some i -> in_range (len d) i.
Proof.
  revert i. induction d as [|x d IH]; intros i H; simpl in H.
  - discriminate.
  - unfold in_range. rewrite len_cons. destruct (N.eqb x ch).
    + inversion H. pose proof (len_nonneg d). lia.
    + destruct (index d ch) as [j|]; simpl in H; inversion H.
      specialize (IH j eq_refl). unfold in_range in IH. lia.
Qed.

Lemma index_getitem (d : pystr) (ch : N) (i : Z) :
  index d ch = Some i -> getitem d i = Some ch.
Proof.
  revert i. induction d as [|x d IH]; intros i H; simpl in H.
  - discriminate.
  - destruct (N.eqb x ch) eqn:E.
    + inversion H. apply N.eqb_eq in E. subst. apply getitem_cons_zero.
    + destruct (index d ch) as [j|] eqn:Ej; simpl in H; inversion H.
      rewrite getitem_cons_succ by (apply index_range with (ch := ch); exact Ej).
      apply IH. reflexivity.
Qed.

Lemma index_In (d : pystr) (ch : N) :
  In ch d -> exists i, index d ch = Some i.
Proof.
  induction d as [|x d IH]; intros H; simpl in *.
  - contradiction.
  - destruct (N.eqb x ch) eqn:E.
    + eexists. reflexivity.
    + destruct H as [H|H].
      * subst. rewrite N.eqb_refl in E. discriminate.
      * destruct (IH H) as [i Hi]. rewrite Hi. eexists. reflexivity.
Qed.

Lemma index_Some_In (d : pystr) (ch : N) (i : Z) :
  index d ch = Some i -> In ch d.
Proof.
  revert i. induction d as [|x d IH]; intros i H; simpl in H.
  - discriminate.
  - destruct (N.eqb x ch) eqn:E.
    + apply N.eqb_eq in E. left. exact E.
    + destruct (index d ch) as [j|]; simpl in H; inversion H.
      right. apply (IH j). reflexivity.
Qed.

Lemma getitem_In {A : Type} (l : list A) (i : Z) (a : A) :
  getitem l i = Some a -> In a l.
Proof.
  unfold getitem. intros H.
  destruct ((0 <=? i) && (i <? len l)).
  - eapply nth_error_In. exact H.
  - destruct ((- len l <=? i) && (i <? 0)).
    + eapply nth_error_In. exact H.
    + discriminate.
Qed.

(** In an alphabet without duplicates, looking up position [i] and then
    searching the character leads back to [i]. *)
Lemma getitem_index (d : pystr) (i : Z) :
  NoDup d -> in_range (len d) i ->
  exists ch, getitem d i = Some ch /\ index d ch = Some i.
Proof.
  intros Hnd. revert i. induction Hnd as [|x d Hx Hnd IH]; intros i Hi.
  - unfold in_range, len in Hi. simpl in Hi. lia.
  - unfold in_range in Hi. rewrite len_cons in Hi.
    destruct (Z.eq_dec i 0) as [->|Hne].
    + exists x. split. apply getitem_cons_zero. simpl. rewrite N.eqb_refl. reflexivity.
    + destruct (IH (i - 1)) as [ch [Hg Hidx]]. unfold in_range; lia.
      exists ch. split.
      * replace i with (Z.succ (i - 1)) by lia.
        rewrite getitem_cons_succ by lia. exact Hg.
      * simpl. destruct (N.eqb x ch) eqn:E.
        -- apply N.eqb_eq in E. subst. exfalso. apply Hx.
           eapply getitem_In. exact Hg.
        -- rewrite Hidx. simpl. f_equal. lia.
Qed.

Lemma indices_range (d s : pystr) (l : list Z) :
  indices d s = Some l -> Forall (in_range (len d)) l.
Proof.
  revert l. induction s as [|ch s IH]; intros l H; simpl in H.
  - inversion H. constructor.
  - destruct (index d ch) as [i|] eqn:Ei; try discriminate.
    destruct (indices d s) as [l'|]; try discriminate.
    inversion H. constructor.
    + eapply index_range. exact Ei.
    + apply IH. reflexivity.
Qed.

Lemma indices_length (d s : pystr) (l : list Z) :
  indices d s = Some l -> length l = length s.
Proof.
  revert l. induction s as [|ch s IH]; intros l H; simpl in H.
  - inversion H. reflexivity.
  - destruct (index d ch) as [i|]; try discriminate.
    destruct (indices d s) as [l'|]; try discriminate.
    inversion H. simpl. f_equal. apply IH. reflexivity.
Qed.

Lemma indices_total (d s : pystr) :
  Forall (fun ch => In ch d) s -> exists l, indices d s = Some l.
Proof.
  induction 1 as [|ch s Hch Hs [l Hl]]; simpl.
  - eexists. reflexivity.
  - destruct (index_In d ch Hch) as [i Hi]. rewrite Hi, Hl. eexists. reflexivity.
Qed.

Lemma indices_In (d s : pystr) (l : list Z) :
  indices d s = Some l -> Forall (fun ch => In ch d) s.
Proof.
  revert l. induction s as [|ch s IH]; intros l H; simpl in H.
  - constructor.
  - destruct (index d ch) as [i|] eqn:Ei; try discriminate.
    destruct (indices d s) as [l'|]; try discriminate.
    constructor.
    + eapply index_Some_In. exact Ei.
    + apply (IH l'). reflexivity.
Qed.

(** Rendering the indices of a string gives the string back. *)
Lemma chars_indices (d s : pystr) (l : list Z) :
  indices d s = Some l -> chars d l = Some s.
Proof.
  revert l. induction s as [|ch s IH]; intros l H; simpl in H.
  - inversion H. reflexivity.
  - destruct (index d ch) as [i|] eqn:Ei; try discriminate.
    destruct (indices d s) as [l'|]; try discriminate.
    inversion H. simpl. rewrite (index_getitem _ _ _ Ei).
    rewrite (IH l' eq_refl). reflexivity.
Qed.

(** Indices in range render to a string whose indices they are. *)
Lemma indices_chars (d : pystr) (l : list Z) :
  NoDup d -> Forall (in_range (len d)) l ->
  exists s, chars d l = Some s /\ indices d s = Some l.
Proof.
  intros Hnd. induction 1 as [|x l Hx Hl [s [Hc Hi]]]; simpl.
  - exists []. split; reflexivity.
  - destruct (getitem_index d x Hnd Hx) as [ch [Hg Hidx]].
    rewrite Hg, Hc. exists (ch :: s). split. reflexivity.
    simpl. rewrite Hidx, Hi. reflexivity.
Qed.

Lemma chars_length (d : pystr) (l : list Z) (s : pystr) :
  chars d l = Some s -> length s = length l.
Proof.
  revert s. induction l as [|x l IH]; intros s H; simpl in H.
  - inversion H. reflexivity.
  - destruct (getitem d x); try discriminate.
    destruct (chars d l) as [s'|]; try discriminate.
    inversion H. simpl. f_equal. apply IH. reflexivity.
Qed.

(** ** The stream transform *)

Lemma wrap_add_mod (d x k : Z) :
  in_range d x -> in_range d k -> wrap_add d (x + k) = (x + k) mod d.
Proof.
  unfold in_range, wrap_add. intros Hx Hk.
  destruct (x + k <? d) eqn:E.
  - apply Z.ltb_lt in E. symmetry. apply Z.mod_small. lia.
  - apply Z.ltb_ge in E. apply Z.mod_unique with (q := 1); lia.
Qed.

Lemma wrap_sub_mod (d x k : Z) :
  in_range d x -> in_range d k -> wrap_sub d (x - k) = (x - k) mod d.
Proof.
  unfold in_range, wrap_sub. intros Hx Hk.
  destruct (x - k >? -1) eqn:E.
  - apply Z.gtb_lt in E. symmetry. apply Z.mod_small. lia.
  - rewrite Z.gtb_ltb in E. apply Z.ltb_ge in E.
    apply Z.mod_unique with (q := -1); lia.
Qed.

Lemma wrap_add_range (d x k : Z) :
  in_range d x -> in_range d k -> in_range d (wrap_add d (x + k)).
Proof.
  unfold in_range, wrap_add. intros Hx Hk.
  destruct (x + k <? d) eqn:E.
  - apply Z.ltb_lt in E. lia.
  - apply Z.ltb_ge in E. lia.
Qed.

Lemma wrap_sub_range (d x k : Z) :
  in_range d x -> in_range d k -> in_range d (wrap_sub d (x - k)).
Proof.
  unfold in_range, wrap_sub. intros Hx Hk.
  destruct (x - k >? -1) eqn:E.
  - apply Z.gtb_lt in E. lia.
  - rewrite Z.gtb_ltb in E. apply Z.ltb_ge in E. lia.
Qed.

(** Subtracting the key undoes adding it. *)
Lemma wrap_sub_add (d x k : Z) :
  in_range d x -> in_range d k -> wrap_sub d (wrap_add d (x + k) - k) = x.
Proof.
  unfold in_range, wrap_add, wrap_sub. intros Hx Hk.
  destruct (x + k <? d) eqn:E.
  - apply Z.ltb_lt in E.
    destruct (x + k - k >? -1) eqn:E2; [lia|].
    rewrite Z.gtb_ltb in E2. apply Z.ltb_ge in E2. lia.
  - apply Z.ltb_ge in E.
    destruct (x + k - d - k >? -1) eqn:E2.
    + apply Z.gtb_lt in E2. lia.
    + lia.
Qed.

Lemma map2_length {A B C : Type} (f : A -> B -> C) (t : list A) (k : list B) :
  (length t <= length k)%nat -> length (map2 f t k) = length t.
Proof.
  revert k. induction t as [|x t IH]; intros k H; simpl.
  - reflexivity.
  - destruct k as [|y k]; simpl in *. lia. f_equal. apply IH. lia.
Qed.

Lemma map2_nth {A B C : Type} (f : A -> B -> C) (t : list A) (k : list B)
    (i : nat) (da : A) (db : B) (dc : C) :
  (i < length t)%nat -> (i < length k)%nat ->
  nth i (map2 f t k) dc = f (nth i t da) (nth i k db).
Proof.
  revert k i. induction t as [|x t IH]; intros k i Ht Hk; simpl in *.
  - lia.
  - destruct k as [|y k]; simpl in *. lia.
    destruct i as [|i]. reflexivity. apply IH; lia.
Qed.

Lemma concat_repeat_length {A : Type} (s : list A) (n : nat) :
  length (concat (repeat s n)) = (n * length s)%nat.
Proof.
  induction n as [|n IH]; simpl. reflexivity.
  rewrite length_app, IH. reflexivity.
Qed.

(** Position [i] of the repeated key holds the key's entry [i mod k]. *)
Lemma concat_repeat_nth {A : Type} (s : list A) (n i : nat) (a : A) :
  (i < n * length s)%nat ->
  nth i (concat (repeat s n)) a = nth (i mod length s) s a.
Proof.
  revert i. induction n as [|n IH]; intros i Hi; simpl in *.
  - lia.
  - destruct (Nat.lt_ge_cases i (length s)) as [Hlt|Hge].
    + rewrite app_nth1 by exact Hlt. rewrite Nat.mod_small by exact Hlt. reflexivity.
    + rewrite app_nth2 by exact Hge. rewrite IH by lia.
      f_equal.
      replace i with ((i - length s) + 1 * length s)%nat at 2 by lia.
      rewrite Nat.Div0.mod_add. reflexivity.
Qed.

Lemma list_mul_Forall {A : Type} (P : A -> Prop) (s : list A) (r : Z) :
  Forall P s -> Forall P (list_mul s r).
Proof.
  intros H. unfold list_mul. induction (Z.to_nat r) as [|n IH]; simpl.
  - constructor.
  - apply Forall_app. split; assumption.
Qed.

(** The repeated key is longer than the text. *)
Lemma list_mul_covers (s t : list Z) :
  s <> [] -> (length t < length (list_mul s (len t / len s + 1)))%nat.
Proof.
  intros Hs. unfold list_mul. rewrite concat_repeat_length.
  assert (Hk : 0 < len s).
  { pose proof (len_nonneg s). destruct (Z.eq_dec (len s) 0) as [E|E].
    - apply len_nil_iff in E. contradiction.
    - lia. }
  pose proof (Z.div_pos (len t) (len s) (len_nonneg t) Hk) as Hq.
  pose proof (Z.mod_pos_bound (len t) (len s) Hk) as Hm.
  pose proof (Z.div_mod (len t) (len s) ltac:(lia)) as Hdm.
  apply Nat2Z.inj_lt. rewrite Nat2Z.inj_mul.
  rewrite Z2Nat.id by lia. unfold len in *. nia.
Qed.

Lemma translated_length (mode : bool) (d : Z) (s t : list Z) :
  s <> [] -> length (translated mode d s t) = length t.
Proof.
  intros Hs. pose proof (list_mul_covers s t Hs) as Hc.
  unfold translated. destruct mode; rewrite length_map; apply map2_length; lia.
Qed.

Lemma map2_add_range (d : Z) (t ks : list Z) :
  Forall (in_range d) t -> Forall (in_range d) ks ->
  Forall (in_range d) (map (wrap_add d) (map2 Z.add t ks)).
Proof.
  intros Ht. revert ks. induction Ht as [|x t Hx Ht IH]; intros ks Hks; simpl.
  - constructor.
  - destruct Hks as [|k ks Hk Hks]; simpl; constructor.
    + apply wrap_add_range; assumption.
    + apply IH. exact Hks.
Qed.

Lemma map2_sub_range (d : Z) (t ks : list Z) :
  Forall (in_range d) t -> Forall (in_range d) ks ->
  Forall (in_range d) (map (wrap_sub d) (map2 Z.sub t ks)).
Proof.
  intros Ht. revert ks. induction Ht as [|x t Hx Ht IH]; intros ks Hks; simpl.
  - constructor.
  - destruct Hks as [|k ks Hk Hks]; simpl; constructor.
    + apply wrap_sub_range; assumption.
    + apply IH. exact Hks.
Qed.

(** Both modes keep indices inside the alphabet. *)
Lemma translated_range (mode : bool) (d : Z) (s t : list Z) :
  Forall (in_range d) s -> Forall (in_range d) t ->
  Forall (in_range d) (translated mode d s t).
Proof.
  intros Hs Ht. unfold translated.
  destruct mode; [apply map2_add_range | apply map2_sub_range];
    try assumption; apply list_mul_Forall; assumption.
Qed.

Lemma map2_sub_add (d : Z) (t ks : list Z) :
  Forall (in_range d) t -> Forall (in_range d) ks ->
  (length t <= length ks)%nat ->
  map (wrap_sub d) (map2 Z.sub (map (wrap_add d) (map2 Z.add t ks)) ks) = t.
Proof.
  intros Ht. revert ks. induction Ht as [|x t Hx Ht IH]; intros ks Hks Hlen; simpl.
  - reflexivity.
  - destruct Hks as [|k ks Hk Hks]; simpl in *. lia.
    rewrite wrap_sub_add by assumption. f_equal. apply IH. exact Hks. lia.
Qed.

(** The reverse transform undoes the forward one. *)
Lemma translated_inverse (d : Z) (s t : list Z) :
  s <> [] -> Forall (in_range d) s -> Forall (in_range d) t ->
  translated false d s (translated true d s t) = t.
Proof.
  intros Hne Hs Ht.
  assert (Hl : len (translated true d s t) = len t).
  { unfold len. rewrite translated_length by exact Hne. reflexivity. }
  unfold translated at 1. rewrite Hl. unfold translated.
  apply map2_sub_add.
  - exact Ht.
  - apply list_mul_Forall. exact Hs.
  - pose proof (list_mul_covers s t Hne). lia.
Qed.

(** The formula of the transform, entry by entry. *)
Lemma translated_nth (mode : bool) (d : Z) (s t : list Z) (i : Z) :
  s <> [] -> Forall (in_range d) s -> Forall (in_range d) t ->
  0 <= i < len t ->
  nth (Z.to_nat i) (translated mode d s t) 0 =
  if mode
  then (nth (Z.to_nat i) t 0 + nth (Z.to_nat (i mod len s)) s 0) mod d
  else (nth (Z.to_nat i) t 0 - nth (Z.to_nat (i mod len s)) s 0) mod d.
Proof.
  intros Hne Hs Ht Hi.
  pose proof (list_mul_covers s t Hne) as Hc.
  assert (Hk : 0 < len s).
  { pose proof (len_nonneg s). destruct (Z.eq_dec (len s) 0) as [E|E].
    - apply len_nil_iff in E. contradiction.
    - lia. }
  assert (Hin : (Z.to_nat i < length t)%nat) by (unfold len in Hi; lia).
  assert (Hkey : nth (Z.to_nat i) (list_mul s (len t / len s + 1)) 0 =
                 nth (Z.to_nat (i mod len s)) s 0).
  { unfold list_mul in *. rewrite concat_repeat_length in Hc.
    rewrite concat_repeat_nth by lia. f_equal.
    unfold len. rewrite Z2Nat.inj_mod by lia. rewrite Nat2Z.id. reflexivity. }
  assert (Hx : in_range d (nth (Z.to_nat i) t 0)).
  { apply Forall_nth; assumption. }
  assert (Hy : in_range d (nth (Z.to_nat (i mod len s)) s 0)).
  { apply Forall_nth. exact Hs.
    pose proof (Z.mod_pos_bound i (len s) Hk). unfold len in *. lia. }
  unfold translated. destruct mode.
  - rewrite nth_indep with (d' := wrap_add d 0)
      by (rewrite length_map, map2_length; lia).
    rewrite map_nth.
    rewrite map2_nth with (da := 0) (db := 0) by lia.
    rewrite Hkey. apply wrap_add_mod; assumption.
  - rewrite nth_indep with (d' := wrap_sub d 0)
      by (rewrite length_map, map2_length; lia).
    rewrite map_nth.
    rewrite map2_nth with (da := 0) (db := 0) by lia.
    rewrite Hkey. apply wrap_sub_mod; assumption.
Qed.

(** ** Random draws *)

Lemma int_mul_bounds (u : Q) (m : Z) :
  unit_draw u -> 0 < m -> in_range m (int_mul u m).
Proof.
  unfold unit_draw, int_mul, in_range. intros Hu Hm.
  rewrite Z.quot_div_nonneg by nia. split.
  - apply Z.div_pos; nia.
  - apply Z.div_lt_upper_bound; nia.
Qed.

Lemma int_mul_frac (v m : Z) : 0 < m -> int_mul (v # Z.to_pos m) m = v.
Proof.
  intros Hm. unfold int_mul. simpl Qnum. simpl Qden.
  rewrite Z2Pos.id by exact Hm. apply Z.quot_mul. lia.
Qed.

(** What the rejection loop accepts: a draw below [max], different from
    the last element of the buffer. *)
Lemma redraw_spec (max c2 : Z) (draws : list Q) (c1 : Z) (rest : list Q) :
  0 < max -> Forall unit_draw draws ->
  redraw max c2 draws = Some (c1, rest) ->
  c1 <> c2 /\ in_range max c1 /\ Forall unit_draw rest.
Proof.
  intros Hmax Hd. induction Hd as [|u draws Hu Hd IH]; simpl; intros H.
  - discriminate.
  - destruct (int_mul u max =? c2) eqn:E.
    + apply IH. exact H.
    + inversion H. subst. apply Z.eqb_neq in E.
      split. exact E. split. apply int_mul_bounds; assumption. exact Hd.
Qed.

(** ** Padding and unpadding *)

Lemma scan_cons2 (a b : Z) (t : list Z) :
  scan (a :: b :: t) = if a =? b then Some O else option_map S (scan (b :: t)).
Proof. reflexivity. Qed.

Lemma scan_cons2_None (a b : Z) (t : list Z) :
  scan (a :: b :: t) = None <-> a <> b /\ scan (b :: t) = None.
Proof.
  rewrite scan_cons2. destruct (a =? b) eqn:E.
  - apply Z.eqb_eq in E. split. discriminate. intros [H _]. contradiction.
  - apply Z.eqb_neq in E. destruct (scan (b :: t)); simpl; split.
    + discriminate.
    + intros [_ H]. discriminate.
    + intros _. split. exact E. reflexivity.
    + reflexivity.
Qed.

(** A run without an adjacent-equal pair stays one when an element that
    differs from its last is appended. *)
Lemma scan_snoc (l : list Z) (b a : Z) :
  scan (l ++ [b]) = None -> b <> a -> scan ((l ++ [b]) ++ [a]) = None.
Proof.
  intros H Hba. induction l as [|x l IH]; simpl app in *.
  - apply scan_cons2_None. split. exact Hba. reflexivity.
  - destruct (l ++ [b]) as [|y rest] eqn:E.
    + destruct l; discriminate.
    + simpl app. apply scan_cons2_None in H. destruct H as [Hxy Hrest].
      apply scan_cons2_None. split. exact Hxy. apply IH. exact Hrest.
Qed.

Lemma scan_rev (l : list Z) : scan l = None -> scan (rev l) = None.
Proof.
  induction l as [|x l IH]; intros H. reflexivity.
  destruct l as [|y l]. reflexivity.
  apply scan_cons2_None in H. destruct H as [Hxy H].
  specialize (IH H). simpl rev in *. apply scan_snoc. exact IH. congruence.
Qed.

(** The scan runs over a prefix without a pair and stops at the pair that
    follows it. *)
Lemma scan_app_pair (l : list Z) (a : Z) (r : list Z) :
  scan (l ++ [a]) = None -> scan (l ++ a :: a :: r) = Some (length l).
Proof.
  induction l as [|x l IH]; intros H.
  - simpl app. rewrite scan_cons2, Z.eqb_refl. reflexivity.
  - simpl app in *. destruct l as [|y l].
    + simpl app in *. apply scan_cons2_None in H. destruct H as [Hxa _].
      rewrite scan_cons2. apply Z.eqb_neq in Hxa. rewrite Hxa.
      rewrite scan_cons2, Z.eqb_refl. reflexivity.
    + simpl app in *. apply scan_cons2_None in H. destruct H as [Hxy H].
      rewrite scan_cons2. apply Z.eqb_neq in Hxy. rewrite Hxy.
      rewrite (IH H). reflexivity.
Qed.

Lemma skipn_app_pair (l : list Z) (a : Z) (r : list Z) :
  skipn (S (length l)) (l ++ a :: a :: r) = a :: r.
Proof. induction l as [|x l IH]. reflexivity. exact IH. Qed.

Lemma unwide_pass_app_pair (l : list Z) (a : Z) (r : list Z) :
  scan (l ++ [a]) = None ->
  unwide_pass (l ++ a :: a :: r) = Some (rev (a :: r)).
Proof.
  intros H. unfold unwide_pass. rewrite (scan_app_pair l a r H).
  rewrite skipn_app_pair. reflexivity.
Qed.

Lemma unwide_marked (t0 tl : Z) (p' q d1 d2 : list Z) :
  t0 :: p' = q ++ [tl] ->
  scan (tl :: d1) = None -> scan (t0 :: d2) = None ->
  unwide_passes 2 (rev d2 ++ t0 :: t0 :: p' ++ tl :: d1) = Some (t0 :: p').
Proof.
  intros Hq H1 H2. cbn [unwide_passes].
  rewrite unwide_pass_app_pair
    by (apply scan_rev in H2; simpl rev in H2; exact H2).
  change (t0 :: p' ++ tl :: d1) with ((t0 :: p') ++ tl :: d1).
  rewrite Hq, !rev_app_distr. simpl rev. rewrite <- !app_assoc. simpl app.
  rewrite unwide_pass_app_pair
    by (apply scan_rev in H1; simpl rev in H1; exact H1).
  simpl rev. rewrite rev_involutive. reflexivity.
Qed.

(** Two passes take the padding off. *)
Lemma unwide_padded (p d1 d2 : list Z) :
  p <> [] ->
  scan (last p 0 :: d1) = None -> scan (hd 0 p :: d2) = None ->
  unwide_passes 2 (padded d2 p d1) = Some p.
Proof.
  intros Hp H1 H2. unfold padded.
  pose proof (app_removelast_last 0 Hp) as Hlast.
  destruct p as [|t0 p']; [contradiction|].
  apply unwide_marked with (q := removelast (t0 :: p')); assumption.
Qed.

(** What [disturb] appends: a run of [s] draws below [max], none equal to
    its predecessor, the first different from the buffer's last element. *)
Lemma disturb_spec (max : Z) (s : nat) (t : list Z) (draws : list Q)
    (t' : list Z) (rest : list Q) :
  0 < max -> Forall unit_draw draws ->
  disturb max s t draws = (t', Some rest) ->
  exists dd, t' = t ++ dd /\ length dd = s /\ scan (last t 0 :: dd) = None /\
             Forall (in_range max) dd /\ Forall unit_draw rest.
Proof.
  intros Hmax. revert t draws. induction s as [|s IH]; intros t draws Hd H;
    cbn [disturb] in H.
  - inversion H. subst. exists []. rewrite app_nil_r.
    repeat split; try constructor. exact Hd.
  - destruct (redraw max (last t 0) draws) as [[c1 rest1]|] eqn:Er.
    + destruct (redraw_spec _ _ _ _ _ Hmax Hd Er) as [Hne [Hr Hd1]].
      destruct (IH _ _ Hd1 H) as [dd [Ht' [Hlen [Hscan [Hrange Hrest]]]]].
      exists (c1 :: dd). rewrite last_last in Hscan.
      repeat split.
      * rewrite Ht', <- app_assoc. reflexivity.
      * simpl. f_equal. exact Hlen.
      * apply scan_cons2_None. split. congruence. exact Hscan.
      * constructor; assumption.
      * exact Hrest.
    + inversion H.
Qed.

(** The two parts of [_wide]: a run after the buffer, then, the buffer
    reversed, a run after its other end; reversed again, the buffer stands
    between the two runs. *)
Lemma parts_spec (max s1 s2 : Z) (t : list Z) (draws : list Q)
    (t' : list Z) (rest : list Q) :
  0 < max -> t <> [] -> Forall unit_draw draws ->
  parts max [s1; s2] t draws = (t', Some rest) ->
  exists d1 d2, t' = rev d2 ++ t ++ d1 /\
                length d1 = Z.to_nat s1 /\ length d2 = Z.to_nat s2 /\
                scan (last t 0 :: d1) = None /\ scan (hd 0 t :: d2) = None /\
                Forall (in_range max) d1 /\ Forall (in_range max) d2.
Proof.
  intros Hmax Ht Hd H. cbn [parts] in H.
  destruct (disturb max (Z.to_nat s1) t draws) as [ta [r1|]] eqn:E1;
    [|inversion H].
  destruct (disturb_spec _ _ _ _ _ _ Hmax Hd E1)
    as [d1 [Hta [Hl1 [Hs1 [Hr1 Hd1]]]]].
  destruct (disturb max (Z.to_nat s2) (rev ta) r1) as [tb [r2|]] eqn:E2;
    [|inversion H].
  destruct (disturb_spec _ _ _ _ _ _ Hmax Hd1 E2)
    as [d2 [Htb [Hl2 [Hs2 [Hr2 Hd2]]]]].
  inversion H. subst t' rest.
  exists d1, d2.
  assert (Hlast : last (rev ta) 0 = hd 0 t).
  { subst ta. destruct t as [|x t]; [contradiction|].
    simpl app. simpl rev. apply last_last. }
  rewrite Hlast in Hs2.
  repeat split; try assumption.
  subst tb ta. rewrite rev_app_distr, rev_involutive. reflexivity.
Qed.

Lemma accepted_draw_unit (max c2 : Z) :
  2 <= max -> unit_draw (accepted_draw max c2).
Proof.
  intros Hmax. unfold unit_draw, accepted_draw. simpl.
  rewrite Z2Pos.id by lia. destruct (c2 =? 0); lia.
Qed.

Lemma redraw_accepted (max c2 : Z) (rest : list Q) :
  2 <= max ->
  redraw max c2 (accepted_draw max c2 :: rest) =
  Some (if c2 =? 0 then 1 else 0, rest).
Proof.
  intros Hmax. cbn [redraw]. unfold accepted_draw.
  rewrite int_mul_frac by lia.
  destruct (c2 =? 0) eqn:E.
  - apply Z.eqb_eq in E. subst c2. reflexivity.
  - rewrite Z.eqb_sym, E. reflexivity.
Qed.

(** More draws at the end of the tape change nothing before the tape would
    have ended. *)
Lemma redraw_app (max c2 : Z) (draws more : list Q) :
  redraw max c2 (draws ++ more) =
  match redraw max c2 draws with
  | Some (c1, rest) => Some (c1, rest ++ more)
  | None => redraw max c2 more
  end.
Proof.
  induction draws as [|u draws IH]; simpl.
  - reflexivity.
  - destruct (int_mul u max =? c2). exact IH. reflexivity.
Qed.

Lemma disturb_app (max : Z) (s : nat) (t : list Z) (draws more : list Q)
    (t' : list Z) (rest : list Q) :
  disturb max s t draws = (t', Some rest) ->
  disturb max s t (draws ++ more) = (t', Some (rest ++ more)).
Proof.
  revert t draws. induction s as [|s IH]; intros t draws H; cbn [disturb] in *.
  - inversion H. reflexivity.
  - rewrite redraw_app.
    destruct (redraw max (last t 0) draws) as [[c1 rest1]|]; [|discriminate].
    apply IH. exact H.
Qed.

(** Whatever has been drawn, some continuation of the tape lets the run of
    [s] accepted draws complete. *)
Lemma disturb_continue (max : Z) (s : nat) (t : list Z) (draws : list Q) :
  2 <= max ->
  exists more t' rest,
    Forall unit_draw more /\
    disturb max s t (draws ++ more) = (t', Some rest).
Proof.
  intros Hmax. revert t draws. induction s as [|s IH]; intros t draws.
  - exists [], t, (draws ++ []). split. constructor. reflexivity.
  - cbn [disturb].
    destruct (redraw max (last t 0) draws) as [[c1 rest1]|] eqn:E.
    + destruct (IH (t ++ [c1]) rest1) as [more [t' [rest [Hm Hrun]]]].
      exists more, t', rest. split. exact Hm.
      rewrite redraw_app, E. exact Hrun.
    + set (v := if last t 0 =? 0 then 1 else 0).
      destruct (IH (t ++ [v]) []) as [more [t' [rest [Hm Hrun]]]].
      exists (accepted_draw max (last t 0) :: more), t', rest. split.
      * constructor. apply accepted_draw_unit. exact Hmax. exact Hm.
      * rewrite redraw_app, E, redraw_accepted by exact Hmax. exact Hrun.
Qed.

Lemma parts_continue (max s1 s2 : Z) (t : list Z) (draws : list Q) :
  2 <= max ->
  exists more t' rest,
    Forall unit_draw more /\
    parts max [s1; s2] t (draws ++ more) = (t', Some rest).
Proof.
  intros Hmax.
  destruct (disturb_continue max (Z.to_nat s1) t draws Hmax)
    as [more1 [t1 [rest1 [Hm1 Hrun1]]]].
  destruct (disturb_continue max (Z.to_nat s2) (rev t1) rest1 Hmax)
    as [more2 [t2 [rest2 [Hm2 Hrun2]]]].
  exists (more1 ++ more2), (rev t2), rest2. split.
  - apply Forall_app. split; assumption.
  - cbn [parts]. rewrite app_assoc.
    rewrite (disturb_app _ _ _ _ more2 _ _ Hrun1), Hrun2. reflexivity.
Qed.

(** ** Instances *)

Lemma nodupb_NoDup (l : pystr) : nodupb l = true -> NoDup l.
Proof.
  induction l as [|x l IH]; simpl; intros H.
  - constructor.
  - apply andb_prop in H. destruct H as [Hx Hl]. constructor.
    + intros Hin. apply negb_true_iff in Hx.
      assert (existsb (N.eqb x) l = true).
      { apply existsb_exists. exists x. split. exact Hin. apply N.eqb_refl. }
      congruence.
    + apply IH. exact Hl.
Qed.

Lemma DIZ_ok : forallb (fun kv => alphabet_ok (snd kv)) DIZ = true.
Proof. vm_compute. reflexivity. Qed.

Lemma lookup_In (diz : list (string * pystr)) (name : string) (d : pystr) :
  lookup diz name = Some d -> exists k, In (k, d) diz.
Proof.
  induction diz as [|[k v] diz IH]; simpl; intros H.
  - discriminate.
  - destruct (String.eqb k name).
    + inversion H. subst. exists k. left. reflexivity.
    + destruct (IH H) as [k' Hk']. exists k'. right. exact Hk'.
Qed.

(** Every registered alphabet passes the check. *)
Lemma lookup_DIZ_ok (name : string) (d : pystr) :
  lookup DIZ name = Some d -> alphabet_ok d = true.
Proof.
  intros H. destruct (lookup_In _ _ _ H) as [k Hk].
  pose proof DIZ_ok as Hall. rewrite forallb_forall in Hall.
  apply (Hall (k, d) Hk).
Qed.

Lemma is_instance_wf (c : WhyCry) : is_instance c -> wf c.
Proof.
  intros [name [key [c0 [Hinit [Hd Hk]]]]]. unfold __init__ in Hinit.
  destruct (lookup DIZ name) as [d|] eqn:El; [|discriminate].
  destruct (indices d key) as [k|] eqn:Ei; [|discriminate].
  inversion Hinit. subst c0. simpl in Hd, Hk.
  apply lookup_DIZ_ok in El. unfold alphabet_ok in El.
  apply andb_prop in El. destruct El as [El Hsize].
  apply andb_prop in El. destruct El as [Hnd Hsc].
  constructor; rewrite ?Hd, ?Hk.
  - apply nodupb_NoDup. exact Hnd.
  - apply Forall_forall. rewrite forallb_forall in Hsc. exact Hsc.
  - apply Z.leb_le. exact Hsize.
  - eapply indices_range. exact Ei.
Qed.

Lemma utf8_encode_total (d s : pystr) :
  Forall (fun ch => scalarb ch = true) d -> Forall (fun ch => In ch d) s ->
  exists b, utf8_encode s = Some b.
Proof.
  intros Hd. induction 1 as [|ch s Hch Hs [b Hb]]; simpl.
  - eexists. reflexivity.
  - rewrite Forall_forall in Hd. specialize (Hd ch Hch). unfold scalarb in Hd.
    destruct (utf8_char ch) as [bc|]; [|discriminate].
    rewrite Hb. eexists. reflexivity.
Qed.

(** ** Running the methods *)

Lemma bind_Ok {A B : Type} (m : M A) (k : A -> M B) (c c' : WhyCry) (a : A) :
  m c = (Ok a, c') -> bind m k c = k a c'.
Proof. intros H. unfold bind. rewrite H. reflexivity. Qed.

Lemma bind_Raise {A B : Type} (m : M A) (k : A -> M B) (c c' : WhyCry) (e : exn) :
  m c = (Raise e, c') -> bind m k c = (Raise e, c').
Proof. intros H. unfold bind. rewrite H. reflexivity. Qed.

Lemma bind_Starved {A B : Type} (m : M A) (k : A -> M B) (c c' : WhyCry) :
  m c = (Starved, c') -> bind m k c = (Starved, c').
Proof. intros H. unfold bind. rewrite H. reflexivity. Qed.

Lemma _build_input_Ok (s : pystr) (l : list Z) (c : WhyCry) :
  indices (dictionary c) s = Some l -> _build_input s c = (Ok l, c).
Proof. intros H. unfold _build_input. rewrite H. reflexivity. Qed.

Lemma _translate_Ok (mode : bool) (t : list Z) (c : WhyCry) :
  text c = Some t -> secretkey c <> [] ->
  _translate mode c =
  (Ok tt, set_text (translated mode (len (dictionary c)) (secretkey c) t) c).
Proof.
  intros Ht Hk. unfold _translate, bind, get_text. rewrite Ht.
  destruct (len (secretkey c) =? 0) eqn:E.
  - apply Z.eqb_eq, len_nil_iff in E. contradiction.
  - unfold translated, assign_text. destruct mode; reflexivity.
Qed.

Lemma _output_Ok (t : list Z) (s : pystr) (c : WhyCry) :
  text c = Some t -> chars (dictionary c) t = Some s -> _output c = (Ok s, c).
Proof.
  intros Ht Hs. unfold _output, bind, get_text. rewrite Ht, Hs. reflexivity.
Qed.

Lemma _wide_false (draws : list Q) (lenght : Z) (t : list Z) (c : WhyCry) :
  text c = Some t ->
  _wide draws false lenght c =
  (Ok tt, set_text (match unwide_passes 2 t with Some t' => t' | None => [] end) c).
Proof.
  intros Ht. unfold _wide, bind, get_text. rewrite Ht.
  destruct (unwide_passes 2 t); reflexivity.
Qed.

Lemma wf_set_text (t : list Z) (c : WhyCry) : wf c -> wf (set_text t c).
Proof. intros [H1 H2 H3 H4]. constructor; assumption. Qed.

(** The part [encode] and [wencode] share once the buffer is ready:
    transform, sign on request, render. *)
Lemma transform_sign_render (mode sig : bool) (T : pystr) (B : list Z) (c : WhyCry) :
  wf c -> secretkey c <> [] -> text c = Some B ->
  Forall (in_range (len (dictionary c))) B ->
  Forall (fun ch => In ch (dictionary c)) T ->
  exists s c',
    (_translate mode ;;;
     (if sig then s <- _sign T ;; assign_signature s else ret tt) ;;;
     _output) c = (Ok s, c') /\
    dictionary c' = dictionary c /\ secretkey c' = secretkey c /\
    text c' = Some (translated mode (len (dictionary c)) (secretkey c) B) /\
    chars (dictionary c) (translated mode (len (dictionary c)) (secretkey c) B) = Some s /\
    indices (dictionary c) s =
      Some (translated mode (len (dictionary c)) (secretkey c) B).
Proof.
  intros Hwf Hk Ht HB HT.
  set (B' := translated mode (len (dictionary c)) (secretkey c) B).
  assert (HB' : Forall (in_range (len (dictionary c))) B').
  { apply translated_range. apply (wf_key c Hwf). exact HB. }
  destruct (indices_chars _ _ (wf_nodup c Hwf) HB') as [s [Hc Hi]].
  rewrite (bind_Ok _ _ _ _ _ (_translate_Ok mode B c Ht Hk)). fold B'.
  destruct sig.
  - destruct (utf8_encode_total _ _ (wf_scalar c Hwf) HT) as [b Hb].
    exists s, (set_signature (SHA512.hexdigest b) (set_text B' c)).
    repeat split; try assumption.
    unfold _sign. rewrite Hb. unfold bind at 1. unfold bind at 1.
    unfold ret, assign_signature.
    apply _output_Ok with (t := B'). reflexivity. exact Hc.
  - exists s, (set_text B' c).
    repeat split; try assumption.
    unfold bind at 1. unfold ret.
    apply _output_Ok with (t := B'). reflexivity. exact Hc.
Qed.

Lemma encode_run (mode sig : bool) (T : pystr) (c : WhyCry) :
  wf c -> secretkey c <> [] -> Forall (fun ch => In ch (dictionary c)) T ->
  exists p s c',
    indices (dictionary c) T = Some p /\
    encode T mode sig c = (Ok s, c') /\
    dictionary c' = dictionary c /\ secretkey c' = secretkey c /\
    text c' = Some (translated mode (len (dictionary c)) (secretkey c) p) /\
    chars (dictionary c) (translated mode (len (dictionary c)) (secretkey c) p) = Some s /\
    indices (dictionary c) s =
      Some (translated mode (len (dictionary c)) (secretkey c) p).
Proof.
  intros Hwf Hk HT.
  destruct (indices_total _ _ HT) as [p Hp].
  destruct (transform_sign_render mode sig T p (set_text p c))
    as [s [c' [Hrun H]]]; try assumption; try reflexivity.
  - apply wf_set_text. exact Hwf.
  - eapply indices_range. exact Hp.
  - exists p, s, c'. split. exact Hp. split; [|exact H].
    unfold encode. rewrite (bind_Ok _ _ _ _ _ (_build_input_Ok T p c Hp)).
    unfold bind at 1. unfold assign_text. exact Hrun.
Qed.

(** The padding branch of [_wide], when it returns. *)
Lemma _wide_true_Ok (draws : list Q) (L : Z) (p : list Z) (c c' : WhyCry) :
  wf c -> text c = Some p -> Forall unit_draw draws ->
  Forall (in_range (len (dictionary c))) p -> L > len p + 2 ->
  _wide draws true L c = (Ok tt, c') ->
  exists d1 d2,
    c' = set_text (padded d2 p d1) c /\ p <> [] /\
    scan (last p 0 :: d1) = None /\ scan (hd 0 p :: d2) = None /\
    Forall (in_range (len (dictionary c))) (padded d2 p d1) /\
    len (padded d2 p d1) = L /\
    Forall (in_range (len (dictionary c) - 1)) (d1 ++ d2).
Proof.
  intros Hwf Ht Hd Hp HL H.
  unfold _wide, bind, get_text in H. rewrite Ht in H.
  destruct p as [|t0 p']; [discriminate|].
  cbv zeta in H. destruct (float_of_int_ok _); [|discriminate].
  destruct draws as [|u draws]; [discriminate|].
  inversion Hd as [|? ? Hu Hd']. subst.
  set (p := t0 :: p') in *.
  set (m := (t0 :: p) ++ [last (t0 :: p) 0]) in *.
  set (cadd := L - len m) in *.
  set (max := len (dictionary c) - 1) in *.
  assert (Hmax : 0 < max) by (pose proof (wf_size c Hwf); unfold max; lia).
  assert (Hm : len m = len p + 2).
  { unfold m. rewrite len_app, len_cons. unfold len at 2. simpl. lia. }
  assert (Hcadd : 0 < cadd) by (unfold cadd; lia).
  pose proof (int_mul_bounds u cadd Hu Hcadd) as Hcs. unfold in_range in Hcs.
  destruct (parts max [int_mul u cadd; cadd - int_mul u cadd] m draws)
    as [t' [rest|]] eqn:Ep; [|discriminate].
  inversion H. subst c'. clear H.
  assert (Hmne : m <> []) by (unfold m; simpl; discriminate).
  destruct (parts_spec _ _ _ _ _ _ _ Hmax Hmne Hd' Ep)
    as [d1 [d2 [Ht' [Hl1 [Hl2 [Hs1 [Hs2 [Hr1 Hr2]]]]]]]].
  assert (Hlm : last m 0 = last p 0).
  { unfold m. rewrite last_last. reflexivity. }
  rewrite Hlm in Hs1. change (hd 0 m) with (hd 0 p) in Hs2.
  assert (Ht'' : t' = padded d2 p d1).
  { rewrite Ht'. unfold padded, m. change (last (t0 :: p) 0) with (last p 0).
    simpl hd. rewrite <- !app_assoc. reflexivity. }
  exists d1, d2. rewrite <- Ht''.
  assert (Hsub : forall l, Forall (in_range max) l ->
                           Forall (in_range (len (dictionary c))) l).
  { intros l. apply Forall_impl. unfold in_range, max. intros; lia. }
  repeat split; try assumption; try discriminate.
  - rewrite Ht'. apply Forall_app. split.
    + apply Forall_rev. apply Hsub. exact Hr2.
    + apply Forall_app. split; [|apply Hsub; exact Hr1].
      unfold m. apply Forall_app. split.
      * constructor. inversion Hp. assumption. exact Hp.
      * constructor; [|constructor]. change (last (t0 :: p) 0) with (last p 0).
        apply Forall_forall with (x := last p 0) in Hp. exact Hp.
        assert (Hpl : p = removelast p ++ [last p 0])
          by (apply app_removelast_last; discriminate).
        rewrite Hpl at 2. apply in_or_app. right. left. reflexivity.
  - rewrite Ht', !len_app. unfold len at 1. rewrite length_rev.
    unfold len at 2. rewrite Hl1, Hl2, Hm. unfold cadd in *. lia.
  - apply Forall_app. split; assumption.
Qed.

(** Whatever has been drawn, some continuation of the tape lets the
    padding branch return. *)
Lemma _wide_true_continue (draws : list Q) (L : Z) (p : list Z) (c : WhyCry) :
  wf c -> text c = Some p -> p <> [] ->
  float_of_int_ok (L - (len p + 2)) = true ->
  exists more c',
    Forall unit_draw more /\ _wide (draws ++ more) true L c = (Ok tt, c').
Proof.
  intros Hwf Ht Hp Hfl.
  destruct p as [|t0 p']; [contradiction|].
  set (p := t0 :: p') in *.
  set (m := (t0 :: p) ++ [last (t0 :: p) 0]).
  set (max := len (dictionary c) - 1).
  assert (Hmax : 2 <= max) by (pose proof (wf_size c Hwf); unfold max; lia).
  set (cadd := L - len m).
  assert (Hfirst : exists first u rest0,
             Forall unit_draw first /\ draws ++ first = u :: rest0).
  { destruct draws as [|u rest0].
    - exists [0 # 1], (0 # 1), []. split; [|reflexivity].
      constructor. unfold unit_draw. simpl. lia. constructor.
    - exists [], u, rest0. split. constructor. apply app_nil_r. }
  destruct Hfirst as [first [u [rest0 [Hf Hu]]]].
  destruct (parts_continue max (int_mul u cadd) (cadd - int_mul u cadd)
              m rest0 Hmax)
    as [more [t' [rest [Hm Hrun]]]].
  assert (Hcadd : cadd = L - (len p + 2)).
  { unfold cadd, m. rewrite len_app, len_cons. unfold len at 2. simpl. lia. }
  exists (first ++ more), (set_text t' c). split.
  - apply Forall_app. split; assumption.
  - rewrite app_assoc, Hu. simpl app.
    unfold _wide, bind, get_text. rewrite Ht. unfold p at 1.
    fold p. fold m. fold cadd. fold max.
    rewrite Hcadd at 1. rewrite Hfl, Hrun. reflexivity.
Qed.

Lemma unwide_pass_Forall (P : Z -> Prop) (t t' : list Z) :
  unwide_pass t = Some t' -> Forall P t -> Forall P t'.
Proof.
  unfold unwide_pass. destruct (scan t) as [x|]; [|discriminate].
  intros H Ht. inversion H. apply Forall_rev.
  rewrite <- (firstn_skipn (S x) t) in Ht. apply Forall_app in Ht. apply Ht.
Qed.

Lemma unwide_Forall (P : Z -> Prop) (t : list Z) :
  Forall P t -> Forall P (unwide t).
Proof.
  intros Ht. unfold unwide. cbn [unwide_passes].
  destruct (unwide_pass t) as [t1|] eqn:E1; [|constructor].
  destruct (unwide_pass t1) as [t2|] eqn:E2; [|constructor].
  eapply unwide_pass_Forall. exact E2. eapply unwide_pass_Forall; eassumption.
Qed.

(** [wdecode] on a string over the alphabet: it returns the rendering of
    the unpadded, reverse-transformed buffer. *)
Lemma wdecode_run (s : pystr) (B : list Z) (c : WhyCry) :
  wf c -> secretkey c <> [] -> indices (dictionary c) s = Some B ->
  exists r c',
    wdecode s c = (Ok r, c') /\
    chars (dictionary c)
      (unwide (translated false (len (dictionary c)) (secretkey c) B)) = Some r.
Proof.
  intros Hwf Hk HB.
  set (B' := translated false (len (dictionary c)) (secretkey c) B).
  assert (HB' : Forall (in_range (len (dictionary c))) (unwide B')).
  { apply unwide_Forall. apply translated_range. apply (wf_key c Hwf).
    eapply indices_range. exact HB. }
  destruct (indices_chars _ _ (wf_nodup c Hwf) HB') as [r [Hc _]].
  exists r, (set_text (unwide B') c). split; [|exact Hc].
  unfold wdecode. rewrite (bind_Ok _ _ _ _ _ (_build_input_Ok s B c HB)).
  unfold bind at 1. unfold assign_text.
  rewrite (bind_Ok _ _ _ _ _
             (_translate_Ok false B (set_text B c) eq_refl Hk)).
  rewrite (bind_Ok _ _ _ _ _
             (_wide_false [] 0 B' (set_text B' (set_text B c)) eq_refl)).
  apply _output_Ok with (t := unwide B'). reflexivity. exact Hc.
Qed.

(** ** The claims *)

(** C1 (padded round trip).  On a cipher instance with a non-empty key, for
    a non-empty text over the alphabet and a target length [L > len(T) + 2]:
    for every outcome of the draws with which [wencode] returns, the
    returned string has length exactly [L] and [wdecode] maps it back to
    the text; and [wencode] does return when the number of characters to
    add, [L - (len(T) + 2)], converts to a double: whatever has been drawn,
    some continuation of the draws lets it return (the rejection loop only
    goes on while the draws repeat the last element).  Beyond that bound
    the product [r() * cadd] raises OverflowError (see
    [wencode_overflow]). *)
Theorem wencode_wdecode_roundtrip (c : WhyCry) (T : pystr) (L : Z) (sig : bool) :
  is_instance c -> secretkey c <> [] ->
  T <> [] -> Forall (fun ch => In ch (dictionary c)) T ->
  L > len T + 2 ->
  (L - (len T + 2) < 2 ^ 1024 - 2 ^ 970 ->
   forall draws,
      Forall unit_draw draws ->
      exists more s c',
        Forall unit_draw more /\
        wencode (draws ++ more) T L sig c = (Ok s, c')) /\
  (forall draws s c',
      Forall unit_draw draws -> wencode draws T L sig c = (Ok s, c') ->
      len s = L /\ exists c'', wdecode s c' = (Ok T, c'')).
Proof.
  intros Hinst Hk HT Hover HL.
  pose proof (is_instance_wf c Hinst) as Hwf.
  destruct (indices_total _ _ Hover) as [p Hp].
  assert (Hlen : len p = len T).
  { unfold len. rewrite (indices_length _ _ _ Hp). reflexivity. }
  assert (Hpne : p <> []).
  { intros ->. destruct T; [contradiction|discriminate]. }
  assert (Hpr : Forall (in_range (len (dictionary c))) p).
  { eapply indices_range. exact Hp. }
  assert (Hgt : (L >? len T + 2) = true) by (apply Z.gtb_lt; lia).
  assert (Hstep : forall draws, wencode draws T L sig c =
            (_wide draws true L ;;; _translate true ;;;
             (if sig then s <- _sign T ;; assign_signature s else ret tt) ;;;
             _output) (set_text p c)).
  { intros draws. unfold wencode. rewrite Hgt.
    rewrite (bind_Ok _ _ _ _ _ (_build_input_Ok T p c Hp)).
    unfold bind at 1. reflexivity. }
  assert (Hmain : forall draws c1,
            Forall unit_draw draws ->
            _wide draws true L (set_text p c) = (Ok tt, c1) ->
            exists s c', wencode draws T L sig c = (Ok s, c') /\
                         len s = L /\ exists c'', wdecode s c' = (Ok T, c'')).
  { intros draws c1 Hd Hw.
    destruct (_wide_true_Ok draws L p (set_text p c) c1
                (wf_set_text p c Hwf) eq_refl Hd Hpr ltac:(lia) Hw)
      as [d1 [d2 [Hc1 [_ [Hs1 [Hs2 [Hr [HlB _]]]]]]]].
    set (B := padded d2 p d1) in *.
    assert (Hwf1 : wf c1) by (subst c1; do 2 apply wf_set_text; exact Hwf).
    destruct (transform_sign_render true sig T B c1)
      as [s [c' [Hrun [Hd' [Hk' [Ht' [Hch Hidx]]]]]]];
      try (subst c1; assumption); try (subst c1; reflexivity).
    assert (Hdc : dictionary c1 = dictionary c) by (subst c1; reflexivity).
    assert (Hkc : secretkey c1 = secretkey c) by (subst c1; reflexivity).
    rewrite Hdc, Hkc in *.
    exists s, c'. split; [|split].
    - rewrite Hstep, (bind_Ok _ _ _ _ _ Hw). exact Hrun.
    - unfold len. rewrite (chars_length _ _ _ Hch).
      rewrite translated_length by exact Hk. exact HlB.
    - assert (Hwf' : wf c').
      { destruct Hwf as [W1 W2 W3 W4].
        constructor; rewrite ?Hd', ?Hk'; assumption. }
      destruct (wdecode_run s
                  (translated true (len (dictionary c)) (secretkey c) B)
                  c' Hwf')
        as [r [c'' [Hwd Hr']]].
      + rewrite Hk'. exact Hk.
      + rewrite Hd'. exact Hidx.
      + exists c''. rewrite Hwd. f_equal. f_equal.
        rewrite Hd', Hk' in Hr'.
        rewrite translated_inverse in Hr'
          by (try assumption; apply (wf_key c Hwf)).
        unfold unwide, B in Hr'.
        rewrite (unwide_padded p d1 d2 Hpne Hs1 Hs2) in Hr'.
        rewrite (chars_indices _ _ _ Hp) in Hr'. congruence. }
  split.
  - intros Hb draws Hd.
    assert (Hfl : float_of_int_ok (L - (len p + 2)) = true).
    { unfold float_of_int_ok. apply Z.ltb_lt.
      rewrite Z.abs_eq by lia. rewrite Hlen. exact Hb. }
    destruct (_wide_true_continue draws L p (set_text p c)
                (wf_set_text p c Hwf) eq_refl Hpne Hfl)
      as [more [c1 [Hm Hw]]].
    assert (Hall : Forall unit_draw (draws ++ more))
      by (apply Forall_app; split; assumption).
    destruct (Hmain (draws ++ more) c1 Hall Hw) as [s [c' [Hrun _]]].
    exists more, s, c'. split; assumption.
  - intros draws s c' Hd Hrun.
    destruct (_wide draws true L (set_text p c)) as [[[]|e|] c1] eqn:Hw.
    + destruct (Hmain draws c1 Hd Hw) as [s0 [c0 [Hrun0 Hres]]].
      rewrite Hrun in Hrun0. inversion Hrun0. subst. exact Hres.
    + rewrite Hstep, (bind_Raise _ _ _ _ _ Hw) in Hrun. discriminate.
    + rewrite Hstep, (bind_Starved _ _ _ _ Hw) in Hrun. discriminate.
Qed.

Lemma num137_is_instance : is_instance num137.
Proof. exists "num"%string, (str "137"), num137. repeat split. Qed.

Lemma wencode_wdecode_roundtrip_witness :
  (9 - (len (str "582") + 2) < 2 ^ 1024 - 2 ^ 970 ->
   forall draws,
      Forall unit_draw draws ->
      exists more s c',
        Forall unit_draw more /\
        wencode (draws ++ more) (str "582") 9 true num137 = (Ok s, c')) /\
  (forall draws s c',
      Forall unit_draw draws ->
      wencode draws (str "582") 9 true num137 = (Ok s, c') ->
      len s = 9 /\ exists c'', wdecode s c' = (Ok (str "582"), c'')).
Proof.
  apply (wencode_wdecode_roundtrip num137 (str "582") 9 true).
  - exact num137_is_instance.
  - discriminate.
  - discriminate.
  - in_alphabet.
  - reflexivity.
Defined.

(** C2 (stream transform).  With non-empty key indices K and text indices
    T, all inside an alphabet of size D, [_translate] assigns a buffer of
    the length of T whose entry i is (T[i] + K[i mod k]) mod D in forward
    mode and (T[i] - K[i mod k]) mod D in reverse mode; on alphabet "num"
    with key "137", encode("582") returns "619" and decode("619") returns
    "582". *)
Theorem translate_formula (c : WhyCry) (T : list Z) (mode : bool) :
  secretkey c <> [] ->
  Forall (in_range (len (dictionary c))) (secretkey c) ->
  text c = Some T ->
  Forall (in_range (len (dictionary c))) T ->
  (exists out,
      _translate mode c = (Ok tt, set_text out c) /\
      len out = len T /\
      forall i, 0 <= i < len T ->
        nth (Z.to_nat i) out 0 =
        if mode
        then (nth (Z.to_nat i) T 0 +
              nth (Z.to_nat (i mod len (secretkey c))) (secretkey c) 0)
             mod len (dictionary c)
        else (nth (Z.to_nat i) T 0 -
              nth (Z.to_nat (i mod len (secretkey c))) (secretkey c) 0)
             mod len (dictionary c)) /\
  (exists c0 c1 c2,
      __init__ "num" (str "137") = Ok c0 /\
      encode (str "582") true false c0 = (Ok (str "619"), c1) /\
      decode (str "619") c1 = (Ok (str "582"), c2)).
Proof.
  intros Hk Hkr Ht HT. split.
  - exists (translated mode (len (dictionary c)) (secretkey c) T).
    split; [|split].
    + apply _translate_Ok; assumption.
    + unfold len. rewrite translated_length by exact Hk. reflexivity.
    + intros i Hi. apply translated_nth; assumption.
  - do 3 eexists. split; [|split]; vm_compute; reflexivity.
Qed.

Lemma translate_formula_witness :
  (exists out,
      _translate true (set_text [5; 8; 2] num137) =
        (Ok tt, set_text out (set_text [5; 8; 2] num137)) /\
      len out = 3 /\
      forall i, 0 <= i < 3 ->
        nth (Z.to_nat i) out 0 =
        (nth (Z.to_nat i) [5; 8; 2] 0 +
         nth (Z.to_nat (i mod 3)) [1; 3; 7] 0) mod 10) /\
  (exists c0 c1 c2,
      __init__ "num" (str "137") = Ok c0 /\
      encode (str "582") true false c0 = (Ok (str "619"), c1) /\
      decode (str "619") c1 = (Ok (str "582"), c2)).
Proof.
  apply (translate_formula (set_text [5; 8; 2] num137) [5; 8; 2] true).
  - discriminate.
  - repeat constructor; cbv; intuition discriminate.
  - reflexivity.
  - repeat constructor; cbv; intuition discriminate.
Defined.

(** C3 (round trip).  On an instance of a registered alphabet with a
    non-empty key, every text over the alphabet, the empty one included,
    is encoded to a string that [decode] maps back to the text on the same
    instance. *)
Theorem decode_encode (c : WhyCry) (T : pystr) (sig : bool) :
  is_instance c -> secretkey c <> [] ->
  Forall (fun ch => In ch (dictionary c)) T ->
  exists s c1 c2,
    encode T true sig c = (Ok s, c1) /\ decode s c1 = (Ok T, c2).
Proof.
  intros Hinst Hk HT. pose proof (is_instance_wf c Hinst) as Hwf.
  destruct (encode_run true sig T c Hwf Hk HT)
    as [p [s [c1 [Hp [Henc [Hd1 [Hk1 [_ [_ Hidx]]]]]]]]].
  assert (Hwf1 : wf c1).
  { destruct Hwf as [W1 W2 W3 W4]. constructor; rewrite ?Hd1, ?Hk1; assumption. }
  assert (Hs : Forall (fun ch => In ch (dictionary c1)) s).
  { rewrite Hd1. eapply indices_In. exact Hidx. }
  destruct (encode_run false false s c1 Hwf1 ltac:(rewrite Hk1; exact Hk) Hs)
    as [p' [T' [c2 [Hp' [Hdec [_ [_ [_ [Hch _]]]]]]]]].
  exists s, c1, c2. split. exact Henc.
  unfold decode. rewrite Hdec. f_equal. f_equal.
  rewrite Hd1, Hk1 in *. rewrite Hidx in Hp'.
  assert (Hpe : p' = translated true (len (dictionary c)) (secretkey c) p)
    by congruence.
  subst p'. rewrite translated_inverse in Hch.
  - rewrite (chars_indices _ _ _ Hp) in Hch. congruence.
  - exact Hk.
  - apply (wf_key c Hwf).
  - eapply indices_range. exact Hp.
Qed.

Lemma decode_encode_witness :
  exists s c1 c2,
    encode [] true false num137 = (Ok s, c1) /\ decode s c1 = (Ok [], c2).
Proof.
  apply (decode_encode num137 [] false).
  - exact num137_is_instance.
  - discriminate.
  - constructor.
Defined.

Lemma scan_Some (t : list Z) (x : nat) :
  scan t = Some x ->
  exists l a r, t = l ++ a :: a :: r /\ length l = x /\ scan (l ++ [a]) = None.
Proof.
  revert x. induction t as [|a t IH]; intros x H.
  - discriminate.
  - destruct t as [|b t]; [discriminate|].
    rewrite scan_cons2 in H. destruct (a =? b) eqn:E.
    + apply Z.eqb_eq in E. subst b. inversion H.
      exists [], a, t. repeat split.
    + destruct (scan (b :: t)) as [y|] eqn:Ey; [|discriminate].
      simpl in H. inversion H. subst x.
      destruct (IH y eq_refl) as [l [a' [r [Ht [Hl Hs]]]]].
      exists (a :: l), a', r. rewrite Ht. repeat split.
      * simpl. f_equal. exact Hl.
      * simpl app. destruct l as [|z l]; simpl app in *.
        -- inversion Ht. subst. apply scan_cons2_None. split.
           apply Z.eqb_neq. exact E. reflexivity.
        -- inversion Ht. subst. apply scan_cons2_None. split.
           apply Z.eqb_neq. exact E. exact Hs.
Qed.

(** C4, as the code has it.  When the scan of a pass finds the first index
    [x] with [buffer[x] == buffer[x+1]], the pass discards everything up to
    and including the pair's first element: the retained remainder starts
    at index [x + 1], with the pair's second element, and is then
    reversed. *)
Theorem unwide_pass_keeps_second (t : list Z) (x : nat) :
  scan t = Some x ->
  exists l a r,
    t = l ++ a :: a :: r /\ length l = x /\ scan (l ++ [a]) = None /\
    skipn (x + 1) t = a :: r /\
    unwide_pass t = Some (rev (skipn (x + 1) t)).
Proof.
  intros H. destruct (scan_Some t x H) as [l [a [r [Ht [Hl Hs]]]]].
  exists l, a, r. repeat split; try assumption.
  - subst t x. rewrite Nat.add_1_r. apply skipn_app_pair.
  - unfold unwide_pass. rewrite H, Nat.add_1_r. reflexivity.
Qed.

Lemma unwide_pass_keeps_second_witness :
  exists l a r,
    [3; 5; 5; 7] = l ++ a :: a :: r /\ length l = 1%nat /\
    scan (l ++ [a]) = None /\
    skipn (1 + 1) [3; 5; 5; 7] = a :: r /\
    unwide_pass [3; 5; 5; 7] = Some (rev (skipn (1 + 1) [3; 5; 5; 7])).
Proof. apply (unwide_pass_keeps_second [3; 5; 5; 7] 1). reflexivity. Defined.

(** C4 as stated fails: in [3; 5; 5; 7] the scan stops at [x = 1], and the
    pass returns [7; 5], the reverse of the buffer from index 2, not [7],
    the reverse of the buffer from index [x + 2 = 3]. *)
Lemma unwide_pass_not_from_x_plus_2 :
  scan [3; 5; 5; 7] = Some 1%nat /\
  unwide_pass [3; 5; 5; 7] = Some [7; 5] /\
  unwide_pass [3; 5; 5; 7] <> Some (rev (skipn (1 + 2) [3; 5; 5; 7])).
Proof. repeat split. discriminate. Qed.

(** C5, what the code does.  Every disturbance index [_wide] appends lies
    in [0, D - 1): the draw is [int(r() * max)] with [max = D - 1], so the
    last index of the alphabet, [D - 1], is never drawn. *)
Theorem disturbance_below_last_index (c c' : WhyCry) (p : list Z)
    (draws : list Q) (L : Z) :
  is_instance c -> text c = Some p ->
  Forall (in_range (len (dictionary c))) p ->
  Forall unit_draw draws -> L > len p + 2 ->
  _wide draws true L c = (Ok tt, c') ->
  exists d1 d2,
    text c' = Some (padded d2 p d1) /\
    len d1 + len d2 = L - (len p + 2) /\
    Forall (fun x => 0 <= x < len (dictionary c) - 1) (d1 ++ d2) /\
    ~ In (len (dictionary c) - 1) (d1 ++ d2).
Proof.
  intros Hinst Ht Hp Hd HL H.
  destruct (_wide_true_Ok draws L p c c' (is_instance_wf c Hinst) Ht Hd Hp HL H)
    as [d1 [d2 [Hc' [Hne [_ [_ [_ [Hlen Hr]]]]]]]].
  exists d1, d2. subst c'. repeat split.
  - unfold padded in Hlen. rewrite len_app, len_cons, len_app, len_cons in Hlen.
    unfold len in *. rewrite length_rev in Hlen. lia.
  - exact Hr.
  - intros Hin. rewrite Forall_forall in Hr. specialize (Hr _ Hin).
    unfold in_range in Hr. lia.
Qed.

Lemma disturbance_below_last_index_witness :
  exists d1 d2,
    text (set_text [4; 5; 5; 5] (set_text [5] num137)) = Some (padded d2 [5] d1) /\
    len d1 + len d2 = 4 - (len [5] + 2) /\
    Forall (fun x => 0 <= x < len NUM - 1) (d1 ++ d2) /\
    ~ In (len NUM - 1) (d1 ++ d2).
Proof.
  apply (disturbance_below_last_index (set_text [5] num137)
           (set_text [4; 5; 5; 5] (set_text [5] num137)) [5]
           [0 # 1; 5 # 9; 4 # 9] 4).
  - exact num137_is_instance.
  - reflexivity.
  - repeat constructor; cbv; intuition discriminate.
  - repeat constructor; cbv; intuition discriminate.
  - reflexivity.
  - vm_compute. reflexivity.
Defined.

(** C6, as the code has it.  On a cipher instance with a non-empty key,
    for every input string whose characters all lie in the alphabet,
    [wdecode] does not raise: it returns a string, and that string is empty
    whenever a scan pass of the unpadding finds no adjacent-equal pair in
    the buffer. *)
Theorem wdecode_fail_soft (c : WhyCry) (s : pystr) :
  is_instance c -> secretkey c <> [] ->
  Forall (fun ch => In ch (dictionary c)) s ->
  exists B r c',
    indices (dictionary c) s = Some B /\
    wdecode s c = (Ok r, c') /\
    let t := translated false (len (dictionary c)) (secretkey c) B in
    (scan t = None -> r = []) /\
    (forall t1, unwide_pass t = Some t1 -> scan t1 = None -> r = []).
Proof.
  intros Hinst Hk Hs. pose proof (is_instance_wf c Hinst) as Hwf.
  destruct (indices_total _ _ Hs) as [B HB].
  destruct (wdecode_run s B c Hwf Hk HB) as [r [c' [Hrun Hr]]].
  exists B, r, c'. split. exact HB. split. exact Hrun.
  cbv zeta. unfold unwide in Hr. cbn [unwide_passes] in Hr. split.
  - intros Hscan. unfold unwide_pass in Hr. rewrite Hscan in Hr.
    simpl in Hr. congruence.
  - intros t1 Hp1 Hscan. rewrite Hp1 in Hr.
    unfold unwide_pass in Hr. rewrite Hscan in Hr. simpl in Hr. congruence.
Qed.

Lemma wdecode_fail_soft_witness :
  exists B r c',
    indices NUM (str "619") = Some B /\
    wdecode (str "619") num137 = (Ok r, c') /\
    (scan (translated false (len NUM) [1; 3; 7] B) = None -> r = []) /\
    (forall t1,
        unwide_pass (translated false (len NUM) [1; 3; 7] B) = Some t1 ->
        scan t1 = None -> r = []).
Proof.
  apply (wdecode_fail_soft num137 (str "619")).
  - exact num137_is_instance.
  - discriminate.
  - in_alphabet.
Defined.

(** C6 as stated fails twice over: a string with a character outside the
    alphabet makes [wdecode] raise ValueError, and a ciphertext of key "1"
    decoded under key "2" comes back as the non-empty string "4". *)
Lemma wdecode_raises_and_misreads :
  fst (wdecode (str "a") num137) = Raise ValueError /\
  fst (wencode [0 # 1; 0 # 1] (str "5") 4 false num1) = Ok (str "1666") /\
  fst (wdecode (str "1666") num2) = Ok (str "4").
Proof. repeat split. Qed.

(** C7 (precondition).  With a target length [L <= len(text) + 2],
    [wencode] raises AssertionError and leaves the instance, working buffer
    and signature included, exactly as it was. *)
Theorem wencode_rejects_short_length (draws : list Q) (text : pystr) (L : Z)
    (sig : bool) (c : WhyCry) :
  L <= len text + 2 ->
  wencode draws text L sig c = (Raise AssertionError, c).
Proof.
  intros HL. unfold wencode.
  replace (L >? len text + 2) with false.
  - reflexivity.
  - symmetry. rewrite Z.gtb_ltb. apply Z.ltb_ge. exact HL.
Qed.

Lemma wencode_rejects_short_length_witness :
  wencode [1 # 2] (str "582") 5 true num137 = (Raise AssertionError, num137).
Proof.
  apply (wencode_rejects_short_length [1 # 2] (str "582") 5 true num137).
  discriminate.
Defined.

Lemma keeps_bind {A B : Type} (m : M A) (k : A -> M B) :
  keeps_signature m -> (forall a, keeps_signature (k a)) ->
  keeps_signature (bind m k).
Proof.
  intros Hm Hk c. unfold bind. specialize (Hm c).
  destruct (m c) as [[a|e|] c1]; simpl in *.
  - rewrite (Hk a c1). exact Hm.
  - exact Hm.
  - exact Hm.
Qed.

Lemma keeps_ret {A : Type} (a : A) : keeps_signature (ret a).
Proof. intros c. reflexivity. Qed.

Lemma keeps_raise {A : Type} (e : exn) : keeps_signature (@raise A e).
Proof. intros c. reflexivity. Qed.

Lemma keeps_get_text : keeps_signature get_text.
Proof. intros c. unfold get_text. destruct (text c); reflexivity. Qed.

Lemma keeps_assign_text (t : list Z) : keeps_signature (assign_text t).
Proof. intros c. reflexivity. Qed.

Lemma keeps__build_input (s : pystr) : keeps_signature (_build_input s).
Proof.
  intros c. unfold _build_input. destruct (indices (dictionary c) s); reflexivity.
Qed.

Lemma keeps__translate (mode : bool) : keeps_signature (_translate mode).
Proof.
  apply keeps_bind. apply keeps_get_text.
  intros t c. cbv zeta. destruct (len (secretkey c) =? 0); destruct mode; reflexivity.
Qed.

Lemma keeps__wide (draws : list Q) (mode : bool) (lenght : Z) :
  keeps_signature (_wide draws mode lenght).
Proof.
  apply keeps_bind. apply keeps_get_text.
  intros t. destruct mode.
  - destruct t as [|t0 t]. apply keeps_raise.
    intros c. cbv zeta. destruct (float_of_int_ok _); [|reflexivity].
    destruct draws as [|u draws]. reflexivity.
    destruct (parts _ _ _ _) as [t' [rest|]]; reflexivity.
  - destruct (unwide_passes 2 t); apply keeps_assign_text.
Qed.

Lemma keeps__output : keeps_signature _output.
Proof.
  apply keeps_bind. apply keeps_get_text.
  intros t c. destruct (chars (dictionary c) t); reflexivity.
Qed.

Lemma keeps__sign (s : pystr) : keeps_signature (_sign s).
Proof.
  unfold _sign. destruct (utf8_encode s). apply keeps_ret. apply keeps_raise.
Qed.

Create HintDb keeps.
#[local] Hint Resolve keeps_ret keeps_raise keeps_get_text keeps_assign_text
  keeps__build_input keeps__translate keeps__wide keeps__output keeps__sign
  : keeps.

Ltac keeps :=
  cbv iota;
  first [ solve [auto with keeps]
        | apply keeps_bind; [ keeps | intros ?; keeps ] ].

Lemma bind_Ok_inv {A B : Type} (m : M A) (k : A -> M B) (c c' : WhyCry) (b : B) :
  bind m k c = (Ok b, c') ->
  exists a c1, m c = (Ok a, c1) /\ k a c1 = (Ok b, c').
Proof.
  unfold bind. destruct (m c) as [[a|e|] c1]; intros H; try discriminate.
  exists a, c1. split. reflexivity. exact H.
Qed.

Lemma _output_state (c c' : WhyCry) (r : outcome pystr) :
  _output c = (r, c') -> c' = c.
Proof.
  unfold _output, bind, get_text. destruct (text c) as [t|].
  - destruct (chars (dictionary c) t); intros H; inversion H; reflexivity.
  - intros H; inversion H; reflexivity.
Qed.

(** A signing request that is reached stores the digest of the plaintext. *)
Lemma sign_then_output (T : pystr) (c c' : WhyCry) (s : pystr) :
  ((d <- _sign T ;; assign_signature d) ;;; _output) c = (Ok s, c') ->
  exists bytes,
    utf8_encode T = Some bytes /\
    signature c' = Some (SHA512.hexdigest bytes).
Proof.
  intros H. apply bind_Ok_inv in H. destruct H as [[] [c1 [Hs Ho]]].
  apply _output_state in Ho. subst c'.
  unfold _sign in Hs. destruct (utf8_encode T) as [bytes|].
  - exists bytes. split. reflexivity. inversion Hs. reflexivity.
  - discriminate.
Qed.

(** C8 (signature frame).  The signature is absent after construction;
    [decode], [wdecode], [verify], and [encode] and [wencode] without a
    signing request leave it as it was, however they end; [encode] and
    [wencode] with a signing request, when they return, have stored the hex
    digest of the UTF-8 bytes of the plaintext. *)
Theorem signature_frame :
  (forall name key c, __init__ name key = Ok c -> signature c = None) /\
  (forall T c, signature (snd (decode T c)) = signature c) /\
  (forall T c, signature (snd (wdecode T c)) = signature c) /\
  (forall sg c, signature (snd (verify sg c)) = signature c) /\
  (forall T mode c, signature (snd (encode T mode false c)) = signature c) /\
  (forall draws T L c,
      signature (snd (wencode draws T L false c)) = signature c) /\
  (forall T mode c s c',
      encode T mode true c = (Ok s, c') ->
      exists bytes, utf8_encode T = Some bytes /\
                    signature c' = Some (SHA512.hexdigest bytes)) /\
  (forall draws T L c s c',
      wencode draws T L true c = (Ok s, c') ->
      exists bytes, utf8_encode T = Some bytes /\
                    signature c' = Some (SHA512.hexdigest bytes)).
Proof.
  repeat split.
  - intros name key c H. unfold __init__ in H.
    destruct (lookup DIZ name) as [d|]; [|discriminate].
    destruct (indices d key) as [k|]; [|discriminate].
    inversion H. reflexivity.
  - intros T. change (keeps_signature (decode T)). unfold decode, encode. keeps.
  - intros T. change (keeps_signature (wdecode T)). unfold wdecode. keeps.
  - intros sg. change (keeps_signature (verify sg)). unfold verify. keeps.
  - intros T mode. change (keeps_signature (encode T mode false)).
    unfold encode. keeps.
  - intros draws T L. change (keeps_signature (wencode draws T L false)).
    unfold wencode. destruct (L >? len T + 2); keeps.
  - intros T mode c s c' H. unfold encode in H.
    apply bind_Ok_inv in H. destruct H as [t [c1 [_ H]]].
    apply bind_Ok_inv in H. destruct H as [[] [c2 [_ H]]].
    apply bind_Ok_inv in H. destruct H as [[] [c3 [_ H]]].
    eapply sign_then_output. exact H.
  - intros draws T L c s c' H. unfold wencode in H.
    destruct (L >? len T + 2); [|discriminate].
    apply bind_Ok_inv in H. destruct H as [t [c1 [_ H]]].
    apply bind_Ok_inv in H. destruct H as [[] [c2 [_ H]]].
    apply bind_Ok_inv in H. destruct H as [[] [c3 [_ H]]].
    apply bind_Ok_inv in H. destruct H as [[] [c4 [_ H]]].
    eapply sign_then_output. exact H.
Qed.

Lemma signature_frame_witness :
  signature (snd (wdecode (str "172619331") num137)) = signature num137 /\
  exists bytes,
    utf8_encode (str "582") = Some bytes /\
    signature (snd (encode (str "582") true true num137)) =
      Some (SHA512.hexdigest bytes).
Proof.
  destruct signature_frame as [_ [_ [Hwd [_ [_ [_ [Henc _]]]]]]].
  split.
  - apply Hwd.
  - apply (Henc (str "582") true num137 (str "619")). vm_compute. reflexivity.
Defined.

(** C9 (indices stay in range).  On a cipher instance with a non-empty
    key, a buffer of indices in [0, D) is transformed, in either mode, into
    indices in [0, D), and rendering them raises no IndexError. *)
Theorem translate_stays_in_alphabet (c : WhyCry) (t : list Z) (mode : bool) :
  is_instance c -> secretkey c <> [] -> text c = Some t ->
  Forall (in_range (len (dictionary c))) t ->
  exists t' s,
    _translate mode c = (Ok tt, set_text t' c) /\
    Forall (in_range (len (dictionary c))) t' /\
    _output (set_text t' c) = (Ok s, set_text t' c).
Proof.
  intros Hinst Hk Ht Hr. pose proof (is_instance_wf c Hinst) as Hwf.
  set (t' := translated mode (len (dictionary c)) (secretkey c) t).
  assert (Hr' : Forall (in_range (len (dictionary c))) t').
  { apply translated_range. apply (wf_key c Hwf). exact Hr. }
  destruct (indices_chars _ _ (wf_nodup c Hwf) Hr') as [s [Hc _]].
  exists t', s. split; [|split].
  - apply _translate_Ok; assumption.
  - exact Hr'.
  - apply _output_Ok with (t := t'). reflexivity. exact Hc.
Qed.

Lemma translate_stays_in_alphabet_witness :
  exists t' s,
    _translate false (set_text [6; 1; 9] num137) =
      (Ok tt, set_text t' (set_text [6; 1; 9] num137)) /\
    Forall (in_range (len NUM)) t' /\
    _output (set_text t' (set_text [6; 1; 9] num137)) =
      (Ok s, set_text t' (set_text [6; 1; 9] num137)).
Proof.
  apply (translate_stays_in_alphabet (set_text [6; 1; 9] num137) [6; 1; 9] false).
  - exact num137_is_instance.
  - discriminate.
  - reflexivity.
  - repeat constructor; cbv; intuition discriminate.
Defined.

(** C10 (empty text).  For every target length [L > 2], [wencode] of the
    empty text passes the length check and then raises IndexError where
    the padding reads the first element of the empty buffer; no padded
    string is returned. *)
Theorem wencode_empty_text (draws : list Q) (L : Z) (sig : bool) (c : WhyCry) :
  L > 2 ->
  (L >? len (@nil N) + 2) = true /\
  wencode draws [] L sig c = (Raise IndexError, set_text [] c).
Proof.
  intros HL.
  assert (H : (L >? len (@nil N) + 2) = true) by (apply Z.gtb_lt; simpl; lia).
  split. exact H.
  unfold wencode. rewrite H. reflexivity.
Qed.

Lemma wencode_empty_text_witness :
  (3 >? len (@nil N) + 2) = true /\
  wencode [1 # 2] [] 3 false num137 = (Raise IndexError, set_text [] num137).
Proof. apply (wencode_empty_text [1 # 2] 3 false num137). reflexivity. Defined.

(** ** Further properties of the methods *)

Lemma pystr_eqb_refl (a : pystr) : pystr_eqb a a = true.
Proof. unfold pystr_eqb. destruct (list_eq_dec N.eq_dec a a); congruence. Qed.

Lemma pystr_eqb_neq (a b : pystr) : a <> b -> pystr_eqb a b = false.
Proof. unfold pystr_eqb. destruct (list_eq_dec N.eq_dec a b); congruence. Qed.

Lemma chars_In (d : pystr) (l : list Z) (s : pystr) :
  chars d l = Some s -> Forall (fun ch => In ch d) s.
Proof.
  revert s. induction l as [|x l IH]; intros s H; simpl in H.
  - inversion H. constructor.
  - destruct (getitem d x) as [ch|] eqn:Eg; [|discriminate].
    destruct (chars d l) as [s'|]; [|discriminate].
    inversion H. constructor.
    + eapply getitem_In. exact Eg.
    + apply IH. reflexivity.
Qed.

Lemma chars_app (d : pystr) (l1 l2 : list Z) (s : pystr) :
  chars d (l1 ++ l2) = Some s ->
  exists s1 s2, chars d l1 = Some s1 /\ chars d l2 = Some s2 /\ s = s1 ++ s2.
Proof.
  revert s. induction l1 as [|x l1 IH]; intros s H; simpl in *.
  - exists [], s. repeat split. exact H.
  - destruct (getitem d x) as [ch|]; [|discriminate].
    destruct (chars d (l1 ++ l2)) as [s'|] eqn:E; [|discriminate].
    destruct (IH s' eq_refl) as [s1 [s2 [H1 [H2 Hs]]]].
    rewrite H1. exists (ch :: s1), s2. repeat split. exact H2.
    inversion H. subst. reflexivity.
Qed.

Lemma indices_None (d T : pystr) (ch : N) :
  In ch T -> ~ In ch d -> indices d T = None.
Proof.
  intros Hin Hout. induction T as [|x T IH]; simpl in *.
  - contradiction.
  - destruct (index d x) as [i|] eqn:Ei; [|reflexivity].
    destruct Hin as [->|Hin].
    + exfalso. apply Hout. eapply index_Some_In. exact Ei.
    + rewrite (IH Hin). reflexivity.
Qed.

(** Adding the key undoes subtracting it. *)
Lemma wrap_add_sub (d x k : Z) :
  in_range d x -> in_range d k -> wrap_add d (wrap_sub d (x - k) + k) = x.
Proof.
  unfold in_range, wrap_add, wrap_sub. intros Hx Hk.
  destruct (x - k >? -1) eqn:E.
  - apply Z.gtb_lt in E.
    destruct (x - k + k <? d) eqn:E2; [lia|]. apply Z.ltb_ge in E2. lia.
  - rewrite Z.gtb_ltb in E. apply Z.ltb_ge in E.
    destruct (x - k + d + k <? d) eqn:E2.
    + apply Z.ltb_lt in E2. lia.
    + lia.
Qed.

Lemma map2_add_sub (d : Z) (t ks : list Z) :
  Forall (in_range d) t -> Forall (in_range d) ks ->
  (length t <= length ks)%nat ->
  map (wrap_add d) (map2 Z.add (map (wrap_sub d) (map2 Z.sub t ks)) ks) = t.
Proof.
  intros Ht. revert ks. induction Ht as [|x t Hx Ht IH]; intros ks Hks Hlen; simpl.
  - reflexivity.
  - destruct Hks as [|k ks Hk Hks]; simpl in *. lia.
    rewrite wrap_add_sub by assumption. f_equal. apply IH. exact Hks. lia.
Qed.

(** The forward transform undoes the reverse one. *)
Lemma translated_inverse_rev (d : Z) (s t : list Z) :
  s <> [] -> Forall (in_range d) s -> Forall (in_range d) t ->
  translated true d s (translated false d s t) = t.
Proof.
  intros Hne Hs Ht.
  assert (Hl : len (translated false d s t) = len t).
  { unfold len. rewrite translated_length by exact Hne. reflexivity. }
  unfold translated at 1. rewrite Hl. unfold translated.
  apply map2_add_sub.
  - exact Ht.
  - apply list_mul_Forall. exact Hs.
  - pose proof (list_mul_covers s t Hne). lia.
Qed.

(** A key of zeros leaves the buffer as it is, in both modes. *)
Lemma translated_zero_key (mode : bool) (d : Z) (s t : list Z) :
  s <> [] -> Forall (fun k => k = 0) s -> Forall (in_range d) t ->
  translated mode d s t = t.
Proof.
  intros Hne Hs Ht. pose proof (list_mul_covers s t Hne) as Hc.
  assert (Hz : Forall (fun k => k = 0) (list_mul s (len t / len s + 1)))
    by (apply list_mul_Forall; exact Hs).
  unfold translated. revert Hc Hz.
  generalize (list_mul s (len t / len s + 1)). intros ks Hc Hz.
  revert ks Hc Hz. induction Ht as [|x t Hx Ht IH]; intros ks Hc Hz.
  - destruct mode; reflexivity.
  - destruct Hz as [|k ks Hk Hz]; simpl in Hc; [lia|]. subst k.
    specialize (IH ks ltac:(lia) Hz). unfold in_range in Hx.
    destruct mode; simpl; simpl in IH; rewrite IH; f_equal.
    + unfold wrap_add. rewrite Z.add_0_r.
      destruct (x <? d) eqn:E. reflexivity. apply Z.ltb_ge in E. lia.
    + unfold wrap_sub. rewrite Z.sub_0_r.
      destruct (x >? -1) eqn:E. reflexivity.
      rewrite Z.gtb_ltb in E. apply Z.ltb_ge in E. lia.
Qed.

Lemma config_bind {A B : Type} (m : M A) (k : A -> M B) :
  keeps_config m -> (forall a, keeps_config (k a)) -> keeps_config (bind m k).
Proof.
  intros Hm Hk c. unfold bind. specialize (Hm c).
  destruct (m c) as [[a|e|] c1]; simpl in *; try exact Hm.
  destruct (Hk a c1) as [H1 H2]. destruct Hm as [H3 H4].
  split; congruence.
Qed.

Lemma config_ret {A : Type} (a : A) : keeps_config (ret a).
Proof. intros c. split; reflexivity. Qed.

Lemma config_raise {A : Type} (e : exn) : keeps_config (@raise A e).
Proof. intros c. split; reflexivity. Qed.

Lemma config_get_text : keeps_config get_text.
Proof. intros c. unfold get_text. destruct (text c); split; reflexivity. Qed.

Lemma config_assign_text (t : list Z) : keeps_config (assign_text t).
Proof. intros c. split; reflexivity. Qed.

Lemma config_assign_signature (s : pystr) : keeps_config (assign_signature s).
Proof. intros c. split; reflexivity. Qed.

Lemma config__build_input (s : pystr) : keeps_config (_build_input s).
Proof.
  intros c. unfold _build_input.
  destruct (indices (dictionary c) s); split; reflexivity.
Qed.

Lemma config__translate (mode : bool) : keeps_config (_translate mode).
Proof.
  apply config_bind. apply config_get_text.
  intros t c. cbv zeta.
  destruct (len (secretkey c) =? 0); destruct mode; split; reflexivity.
Qed.

Lemma config__wide (draws : list Q) (mode : bool) (lenght : Z) :
  keeps_config (_wide draws mode lenght).
Proof.
  apply config_bind. apply config_get_text.
  intros t. destruct mode.
  - destruct t as [|t0 t]. apply config_raise.
    intros c. cbv zeta. destruct (float_of_int_ok _); [|split; reflexivity].
    destruct draws as [|u draws]. split; reflexivity.
    destruct (parts _ _ _ _) as [t' [rest|]]; split; reflexivity.
  - destruct (unwide_passes 2 t); apply config_assign_text.
Qed.

Lemma config__output : keeps_config _output.
Proof.
  apply config_bind. apply config_get_text.
  intros t c. destruct (chars (dictionary c) t); split; reflexivity.
Qed.

Lemma config__sign (s : pystr) : keeps_config (_sign s).
Proof.
  unfold _sign. destruct (utf8_encode s). apply config_ret. apply config_raise.
Qed.

Create HintDb config.
#[local] Hint Resolve config_ret config_raise config_get_text
  config_assign_text config_assign_signature config__build_input
  config__translate config__wide config__output config__sign : config.

Ltac config :=
  first [ solve [auto with config]
        | apply config_bind; [ config | intros ?; config ]
        | match goal with
          | |- keeps_config (if ?b then _ else _) => destruct b; config
          end ].

Lemma config_encode (T : pystr) (mode sig : bool) : keeps_config (encode T mode sig).
Proof. unfold encode. config. Qed.

Lemma config_wencode (draws : list Q) (T : pystr) (L : Z) (sig : bool) :
  keeps_config (wencode draws T L sig).
Proof. unfold wencode. config. Qed.

Lemma config_wdecode (T : pystr) : keeps_config (wdecode T).
Proof. unfold wdecode. config. Qed.

Lemma config_verify (sg : pystr) : keeps_config (verify sg).
Proof. unfold verify. config. Qed.

(** X1 (dictionary and key are never reassigned).  Whatever a call of
    [encode], [decode], [wencode], [wdecode] or [verify] does and however
    it ends, the instance it leaves has the dictionary and the secret key
    of the instance it was called on. *)
Theorem methods_keep_dictionary_and_key (c : WhyCry) :
  (forall T mode sig,
      dictionary (snd (encode T mode sig c)) = dictionary c /\
      secretkey (snd (encode T mode sig c)) = secretkey c) /\
  (forall T,
      dictionary (snd (decode T c)) = dictionary c /\
      secretkey (snd (decode T c)) = secretkey c) /\
  (forall draws T L sig,
      dictionary (snd (wencode draws T L sig c)) = dictionary c /\
      secretkey (snd (wencode draws T L sig c)) = secretkey c) /\
  (forall T,
      dictionary (snd (wdecode T c)) = dictionary c /\
      secretkey (snd (wdecode T c)) = secretkey c) /\
  (forall sg,
      dictionary (snd (verify sg c)) = dictionary c /\
      secretkey (snd (verify sg c)) = secretkey c).
Proof.
  repeat apply conj; intros.
  - apply config_encode.
  - apply (config_encode T false false).
  - apply config_wencode.
  - apply config_wdecode.
  - apply config_verify.
Qed.

(** A method that returns has rendered the buffer it leaves. *)
Lemma then_output (m : M unit) (c c' : WhyCry) (s : pystr) :
  (m ;;; _output) c = (Ok s, c') -> _output c' = (Ok s, c').
Proof.
  intros H. apply bind_Ok_inv in H. destruct H as [[] [c1 [_ Ho]]].
  pose proof (_output_state _ _ _ Ho). subst c'. exact Ho.
Qed.

Lemma encode_rendered (T : pystr) (mode sig : bool) (c c' : WhyCry) (s : pystr) :
  encode T mode sig c = (Ok s, c') -> _output c' = (Ok s, c').
Proof.
  intros H. unfold encode in H.
  apply bind_Ok_inv in H. destruct H as [t [c1 [_ H]]].
  apply bind_Ok_inv in H. destruct H as [[] [c2 [_ H]]].
  apply bind_Ok_inv in H. destruct H as [[] [c3 [_ H]]].
  eapply then_output. exact H.
Qed.

Lemma wencode_rendered (draws : list Q) (T : pystr) (L : Z) (sig : bool)
    (c c' : WhyCry) (s : pystr) :
  wencode draws T L sig c = (Ok s, c') -> _output c' = (Ok s, c').
Proof.
  intros H. unfold wencode in H.
  destruct (L >? len T + 2); [|discriminate].
  apply bind_Ok_inv in H. destruct H as [t [c1 [_ H]]].
  apply bind_Ok_inv in H. destruct H as [[] [c2 [_ H]]].
  apply bind_Ok_inv in H. destruct H as [[] [c3 [_ H]]].
  apply bind_Ok_inv in H. destruct H as [[] [c4 [_ H]]].
  eapply then_output. exact H.
Qed.

Lemma wdecode_rendered (T : pystr) (c c' : WhyCry) (s : pystr) :
  wdecode T c = (Ok s, c') -> _output c' = (Ok s, c').
Proof.
  intros H. unfold wdecode in H.
  apply bind_Ok_inv in H. destruct H as [t [c1 [_ H]]].
  apply bind_Ok_inv in H. destruct H as [[] [c2 [_ H]]].
  apply bind_Ok_inv in H. destruct H as [[] [c3 [_ H]]].
  eapply then_output. exact H.
Qed.

Lemma _output_over_alphabet (c c' : WhyCry) (s : pystr) :
  _output c = (Ok s, c') -> Forall (fun ch => In ch (dictionary c)) s.
Proof.
  unfold _output, bind, get_text. destruct (text c) as [t|]; [|discriminate].
  destruct (chars (dictionary c) t) as [s'|] eqn:E; [|discriminate].
  intros H. inversion H. subst. eapply chars_In. exact E.
Qed.

Lemma verify_rendered (c : WhyCry) (s bytes sg : pystr) :
  _output c = (Ok s, c) -> utf8_encode s = Some bytes ->
  verify sg c = (Ok (pystr_eqb sg (SHA512.hexdigest bytes)), c).
Proof.
  intros Ho Hb. unfold verify. rewrite (bind_Ok _ _ _ _ _ Ho).
  unfold _sign. rewrite Hb. reflexivity.
Qed.

(** X2 (what [verify] checks).  After a call of [encode], [decode],
    [wencode] or [wdecode] that returned the string [s], [verify(sg)]
    returns whether [sg] is the SHA-512 hex digest of the UTF-8 bytes of
    [s], and leaves the instance as it is. *)
Theorem verify_checks_last_output (c c' : WhyCry) (s : pystr) :
  is_instance c ->
  (exists T mode sig, encode T mode sig c = (Ok s, c')) \/
  (exists draws T L sig, wencode draws T L sig c = (Ok s, c')) \/
  (exists T, wdecode T c = (Ok s, c')) ->
  exists bytes,
    utf8_encode s = Some bytes /\
    forall sg, verify sg c' = (Ok (pystr_eqb sg (SHA512.hexdigest bytes)), c').
Proof.
  intros Hc Hcall.
  assert (H : _output c' = (Ok s, c') /\ dictionary c' = dictionary c).
  { destruct Hcall as [[T [mode [sig H]]]|[[draws [T [L [sig H]]]]|[T H]]].
    - split. eapply encode_rendered; exact H.
      pose proof (config_encode T mode sig c) as [Hd _].
      rewrite H in Hd. exact Hd.
    - split. eapply wencode_rendered; exact H.
      pose proof (config_wencode draws T L sig c) as [Hd _].
      rewrite H in Hd. exact Hd.
    - split. eapply wdecode_rendered; exact H.
      pose proof (config_wdecode T c) as [Hd _]. rewrite H in Hd. exact Hd. }
  destruct H as [Ho Hd].
  pose proof (_output_over_alphabet _ _ _ Ho) as Hs. rewrite Hd in Hs.
  destruct (utf8_encode_total _ _ (wf_scalar c (is_instance_wf c Hc)) Hs)
    as [bytes Hb].
  exists bytes. split. exact Hb.
  intros sg. apply verify_rendered with (s := s); assumption.
Qed.

Lemma verify_checks_last_output_witness :
  exists bytes,
    utf8_encode (str "619") = Some bytes /\
    forall sg,
      verify sg (set_text [6; 1; 9] num137) =
      (Ok (pystr_eqb sg (SHA512.hexdigest bytes)), set_text [6; 1; 9] num137).
Proof.
  apply (verify_checks_last_output num137 (set_text [6; 1; 9] num137) (str "619")).
  - exact num137_is_instance.
  - left. exists (str "582"), true, false. reflexivity.
Defined.

Lemma encode_signed (T : pystr) (mode : bool) (c c' : WhyCry) (s : pystr) :
  encode T mode true c = (Ok s, c') ->
  exists bytes,
    utf8_encode T = Some bytes /\ signature c' = Some (SHA512.hexdigest bytes).
Proof.
  intros H. unfold encode in H.
  apply bind_Ok_inv in H. destruct H as [t [c1 [_ H]]].
  apply bind_Ok_inv in H. destruct H as [[] [c2 [_ H]]].
  apply bind_Ok_inv in H. destruct H as [[] [c3 [_ H]]].
  eapply sign_then_output. exact H.
Qed.

Lemma wencode_signed (draws : list Q) (T : pystr) (L : Z) (c c' : WhyCry)
    (s : pystr) :
  wencode draws T L true c = (Ok s, c') ->
  exists bytes,
    utf8_encode T = Some bytes /\ signature c' = Some (SHA512.hexdigest bytes).
Proof.
  intros H. unfold wencode in H.
  destruct (L >? len T + 2); [|discriminate].
  apply bind_Ok_inv in H. destruct H as [t [c1 [_ H]]].
  apply bind_Ok_inv in H. destruct H as [[] [c2 [_ H]]].
  apply bind_Ok_inv in H. destruct H as [[] [c3 [_ H]]].
  apply bind_Ok_inv in H. destruct H as [[] [c4 [_ H]]].
  eapply sign_then_output. exact H.
Qed.

Lemma signature_wdecode (T : pystr) : keeps_signature (wdecode T).
Proof. unfold wdecode. keeps. Qed.

(** Transforming a rendered buffer in the other mode and rendering it
    again: the run of [encode] on the string of a buffer [q]. *)
Lemma encode_of_rendered (mode : bool) (s : pystr) (q : list Z) (c : WhyCry) :
  wf c -> secretkey c <> [] -> indices (dictionary c) s = Some q ->
  exists r c',
    encode s mode false c = (Ok r, c') /\
    chars (dictionary c)
      (translated mode (len (dictionary c)) (secretkey c) q) = Some r.
Proof.
  intros Hwf Hk Hq.
  destruct (encode_run mode false s c Hwf Hk (indices_In _ _ _ Hq))
    as [q' [r [c' [Hq' [Hrun [_ [_ [_ [Hch _]]]]]]]]].
  assert (q' = q) by congruence. subst q'.
  exists r, c'. split; assumption.
Qed.

(** What a returning [wencode] has done: the buffer it leaves is the
    forward transform of the padded payload, and the string it returns is
    the rendering of that buffer. *)
Lemma wencode_inv (draws : list Q) (T : pystr) (p : list Z) (L : Z) (sig : bool)
    (c c' : WhyCry) (s : pystr) :
  wf c -> secretkey c <> [] -> indices (dictionary c) T = Some p ->
  Forall unit_draw draws -> L > len T + 2 ->
  wencode draws T L sig c = (Ok s, c') ->
  exists d1 d2,
    p <> [] /\
    scan (last p 0 :: d1) = None /\ scan (hd 0 p :: d2) = None /\
    Forall (in_range (len (dictionary c))) (padded d2 p d1) /\
    len (padded d2 p d1) = L /\
    dictionary c' = dictionary c /\ secretkey c' = secretkey c /\
    indices (dictionary c) s =
      Some (translated true (len (dictionary c)) (secretkey c) (padded d2 p d1)).
Proof.
  intros Hwf Hk Hp Hd HL Hrun.
  assert (Hlen : len p = len T).
  { unfold len. rewrite (indices_length _ _ _ Hp). reflexivity. }
  assert (Hpr : Forall (in_range (len (dictionary c))) p).
  { eapply indices_range. exact Hp. }
  unfold wencode in Hrun.
  replace (L >? len T + 2) with true in Hrun
    by (symmetry; apply Z.gtb_lt; lia).
  rewrite (bind_Ok _ _ _ _ _ (_build_input_Ok T p c Hp)) in Hrun.
  unfold bind at 1 in Hrun. unfold assign_text at 1 in Hrun.
  destruct (_wide draws true L (set_text p c)) as [[[]|e|] c1] eqn:Hw.
  - rewrite (bind_Ok _ _ _ _ _ Hw) in Hrun.
    destruct (_wide_true_Ok draws L p (set_text p c) c1
                (wf_set_text p c Hwf) eq_refl Hd Hpr ltac:(lia) Hw)
      as [d1 [d2 [Hc1 [Hne [Hs1 [Hs2 [Hr [HlB _]]]]]]]].
    destruct (transform_sign_render true sig T (padded d2 p d1) c1)
      as [s' [c2 [Hrun' [Hd' [Hk' [_ [_ Hidx]]]]]]];
      try (subst c1; assumption); try (subst c1; reflexivity).
    { subst c1. do 2 apply wf_set_text. exact Hwf. }
    { eapply indices_In. subst c1. exact Hp. }
    rewrite Hrun' in Hrun. inversion Hrun. subst s' c2.
    exists d1, d2. subst c1. simpl in *. repeat split; assumption.
  - rewrite (bind_Raise _ _ _ _ _ Hw) in Hrun. discriminate.
  - rewrite (bind_Starved _ _ _ _ Hw) in Hrun. discriminate.
Qed.

Lemma wdecode_of_wencoded (s : pystr) (p d1 d2 : list Z) (T : pystr) (c : WhyCry) :
  wf c -> secretkey c <> [] -> p <> [] ->
  indices (dictionary c) T = Some p ->
  scan (last p 0 :: d1) = None -> scan (hd 0 p :: d2) = None ->
  Forall (in_range (len (dictionary c))) (padded d2 p d1) ->
  indices (dictionary c) s =
    Some (translated true (len (dictionary c)) (secretkey c) (padded d2 p d1)) ->
  exists c', wdecode s c = (Ok T, c').
Proof.
  intros Hwf Hk Hne Hp Hs1 Hs2 Hr Hidx.
  destruct (wdecode_run s _ c Hwf Hk Hidx) as [r [c' [Hrun Hch]]].
  exists c'. rewrite Hrun. f_equal. f_equal.
  rewrite translated_inverse in Hch
    by (try assumption; apply (wf_key c Hwf)).
  unfold unwide in Hch. rewrite (unwide_padded p d1 d2 Hne Hs1 Hs2) in Hch.
  rewrite (chars_indices _ _ _ Hp) in Hch. congruence.
Qed.

Lemma wf_config (c c' : WhyCry) :
  dictionary c' = dictionary c -> secretkey c' = secretkey c -> wf c -> wf c'.
Proof.
  intros Hd Hk [W1 W2 W3 W4]. constructor; rewrite ?Hd, ?Hk; assumption.
Qed.

(** X3 (the self-test's plain round trip).  On a cipher instance with a
    non-empty key and a text over the alphabet: [encode] with a signature
    request returns and stores a signature; [decode] of the result returns
    the text; [verify] of the stored signature then returns True, and
    [verify] of any other string returns False. *)
Theorem signed_roundtrip_verifies (c : WhyCry) (T : pystr) :
  is_instance c -> secretkey c <> [] ->
  Forall (fun ch => In ch (dictionary c)) T ->
  exists s c1 sg c2,
    encode T true true c = (Ok s, c1) /\
    signature c1 = Some sg /\
    decode s c1 = (Ok T, c2) /\
    verify sg c2 = (Ok true, c2) /\
    forall sg', sg' <> sg -> verify sg' c2 = (Ok false, c2).
Proof.
  intros Hinst Hk HT. pose proof (is_instance_wf c Hinst) as Hwf.
  destruct (encode_run true true T c Hwf Hk HT)
    as [p [s [c1 [Hp [Henc [Hd1 [Hk1 [_ [_ Hidx]]]]]]]]].
  destruct (encode_signed _ _ _ _ _ Henc) as [bytes [Hb Hsig]].
  pose proof (wf_config c c1 Hd1 Hk1 Hwf) as Hwf1.
  destruct (encode_of_rendered false s
              (translated true (len (dictionary c)) (secretkey c) p) c1 Hwf1)
    as [r [c2 [Hdec Hch]]].
  { rewrite Hk1. exact Hk. }
  { rewrite Hd1. exact Hidx. }
  rewrite Hd1, Hk1 in Hch.
  rewrite translated_inverse in Hch
    by first [assumption | apply (wf_key c Hwf) | eapply indices_range; exact Hp].
  rewrite (chars_indices _ _ _ Hp) in Hch.
  assert (r = T) by congruence. subst r.
  pose proof (encode_rendered _ _ _ _ _ _ Hdec) as Hout.
  exists s, c1, (SHA512.hexdigest bytes), c2.
  split. exact Henc. split. exact Hsig. split. exact Hdec. split.
  - rewrite (verify_rendered c2 T bytes _ Hout Hb), pystr_eqb_refl. reflexivity.
  - intros sg' Hne.
    rewrite (verify_rendered c2 T bytes _ Hout Hb), (pystr_eqb_neq _ _ Hne).
    reflexivity.
Qed.

Lemma signed_roundtrip_verifies_witness :
  exists s c1 sg c2,
    encode (str "582") true true num137 = (Ok s, c1) /\
    signature c1 = Some sg /\
    decode s c1 = (Ok (str "582"), c2) /\
    verify sg c2 = (Ok true, c2) /\
    forall sg', sg' <> sg -> verify sg' c2 = (Ok false, c2).
Proof.
  apply (signed_roundtrip_verifies num137 (str "582")).
  - exact num137_is_instance.
  - discriminate.
  - in_alphabet.
Defined.

(** X4 (the self-test's padded round trip).  On a cipher instance with a
    non-empty key, for a text over the alphabet and [L > len(T) + 2]:
    whenever [wencode] with a signature request returns, it has stored a
    signature, [wdecode] of the result returns the text and keeps the
    signature, and [verify] of that signature then returns True. *)
Theorem signed_padded_roundtrip_verifies (c c1 : WhyCry) (T s : pystr) (L : Z)
    (draws : list Q) :
  is_instance c -> secretkey c <> [] ->
  Forall (fun ch => In ch (dictionary c)) T ->
  Forall unit_draw draws -> L > len T + 2 ->
  wencode draws T L true c = (Ok s, c1) ->
  exists sg c2,
    signature c1 = Some sg /\
    wdecode s c1 = (Ok T, c2) /\
    signature c2 = Some sg /\
    verify sg c2 = (Ok true, c2).
Proof.
  intros Hinst Hk HT Hd HL Hrun. pose proof (is_instance_wf c Hinst) as Hwf.
  destruct (indices_total _ _ HT) as [p Hp].
  destruct (wencode_inv draws T p L true c c1 s Hwf Hk Hp Hd HL Hrun)
    as [d1 [d2 [Hne [Hs1 [Hs2 [Hr [_ [Hd1 [Hk1 Hidx]]]]]]]]].
  destruct (wencode_signed _ _ _ _ _ _ Hrun) as [bytes [Hb Hsig]].
  pose proof (wf_config c c1 Hd1 Hk1 Hwf) as Hwf1.
  destruct (wdecode_of_wencoded s p d1 d2 T c1 Hwf1) as [c2 Hdec];
    rewrite ?Hd1, ?Hk1; try assumption.
  pose proof (wdecode_rendered _ _ _ _ Hdec) as Hout.
  pose proof (signature_wdecode s c1) as Hkeep. rewrite Hdec in Hkeep.
  simpl in Hkeep.
  exists (SHA512.hexdigest bytes), c2.
  split. exact Hsig. split. exact Hdec. split. congruence.
  rewrite (verify_rendered c2 T bytes _ Hout Hb), pystr_eqb_refl. reflexivity.
Qed.

Lemma signed_padded_roundtrip_verifies_witness :
  exists sg c2,
    signature (snd (wencode [1 # 2; 0 # 1; 4 # 9; 4 # 9; 0 # 1]
                      (str "582") 9 true num137)) = Some sg /\
    wdecode (str "172619331")
      (snd (wencode [1 # 2; 0 # 1; 4 # 9; 4 # 9; 0 # 1]
              (str "582") 9 true num137)) = (Ok (str "582"), c2) /\
    signature c2 = Some sg /\
    verify sg c2 = (Ok true, c2).
Proof.
  apply (signed_padded_roundtrip_verifies num137 _ (str "582")
           (str "172619331") 9 [1 # 2; 0 # 1; 4 # 9; 4 # 9; 0 # 1]).
  - exact num137_is_instance.
  - discriminate.
  - in_alphabet.
  - repeat constructor; cbv; intuition discriminate.
  - reflexivity.
  - vm_compute. reflexivity.
Defined.

(** X5 ([verify] before any text).  On a newly built instance, which has
    no [text] attribute yet, [verify] raises AttributeError whatever the
    signature passed, and the instance is left as built. *)
Theorem verify_before_text (name : string) (key sg : pystr) (c : WhyCry) :
  __init__ name key = Ok c -> verify sg c = (Raise AttributeError, c).
Proof.
  intros H. unfold __init__ in H.
  destruct (lookup DIZ name) as [d|]; [|discriminate].
  destruct (indices d key) as [k|]; [|discriminate].
  inversion H. reflexivity.
Qed.

Lemma verify_before_text_witness :
  verify (str "00") num137 = (Raise AttributeError, num137).
Proof.
  apply (verify_before_text "num" (str "137") (str "00") num137). reflexivity.
Defined.

(** X6 (empty secret key).  [__init__] accepts the empty secret key for
    every registered alphabet; on the instance it builds, [encode],
    [decode] and [wdecode] of any text over the alphabet, the empty text
    included, raise ZeroDivisionError, leaving the indices of the text in
    the buffer. *)
Theorem empty_key_divides_by_zero (name : string) (d : pystr) :
  lookup DIZ name = Some d ->
  exists c,
    __init__ name [] = Ok c /\ secretkey c = [] /\
    forall T, Forall (fun ch => In ch d) T ->
      exists p,
        indices d T = Some p /\
        (forall mode sig,
            encode T mode sig c = (Raise ZeroDivisionError, set_text p c)) /\
        decode T c = (Raise ZeroDivisionError, set_text p c) /\
        wdecode T c = (Raise ZeroDivisionError, set_text p c).
Proof.
  intros Hl.
  exists {| dictionary := d; secretkey := []; text := None; signature := None |}.
  split. { unfold __init__. rewrite Hl. reflexivity. }
  split. reflexivity.
  intros T HT. destruct (indices_total _ _ HT) as [p Hp].
  exists p. split. exact Hp.
  assert (He : forall mode sig,
             encode T mode sig
               {| dictionary := d; secretkey := []; text := None;
                  signature := None |} =
             (Raise ZeroDivisionError,
              set_text p {| dictionary := d; secretkey := []; text := None;
                            signature := None |})).
  { intros mode sig. unfold encode, bind, _build_input. simpl. rewrite Hp.
    reflexivity. }
  split. exact He. split. apply He.
  unfold wdecode, bind, _build_input. simpl. rewrite Hp. reflexivity.
Qed.

Lemma empty_key_divides_by_zero_witness :
  exists c,
    __init__ "num" [] = Ok c /\ secretkey c = [] /\
    forall T, Forall (fun ch => In ch NUM) T ->
      exists p,
        indices NUM T = Some p /\
        (forall mode sig,
            encode T mode sig c = (Raise ZeroDivisionError, set_text p c)) /\
        decode T c = (Raise ZeroDivisionError, set_text p c) /\
        wdecode T c = (Raise ZeroDivisionError, set_text p c).
Proof. apply (empty_key_divides_by_zero "num" NUM). reflexivity. Defined.

(** X7 (character outside the alphabet).  When the text holds a character
    that is not in the instance's dictionary, [encode], [decode], [wdecode]
    and, for a target length that passes the assertion, [wencode] raise
    ValueError and leave the instance, buffer and signature included,
    exactly as it was. *)
Theorem foreign_character_raises (c : WhyCry) (T : pystr) (ch : N) :
  In ch T -> ~ In ch (dictionary c) ->
  (forall mode sig, encode T mode sig c = (Raise ValueError, c)) /\
  decode T c = (Raise ValueError, c) /\
  wdecode T c = (Raise ValueError, c) /\
  (forall draws L sig,
      L > len T + 2 -> wencode draws T L sig c = (Raise ValueError, c)).
Proof.
  intros Hin Hout. pose proof (indices_None _ _ _ Hin Hout) as Hn.
  assert (He : forall mode sig, encode T mode sig c = (Raise ValueError, c)).
  { intros mode sig. unfold encode, bind, _build_input. rewrite Hn. reflexivity. }
  split. exact He. split. apply He. split.
  - unfold wdecode, bind, _build_input. rewrite Hn. reflexivity.
  - intros draws L sig HL. unfold wencode.
    replace (L >? len T + 2) with true by (symmetry; apply Z.gtb_lt; lia).
    unfold bind, _build_input. rewrite Hn. reflexivity.
Qed.

Lemma foreign_character_raises_witness :
  (forall mode sig, encode (str "5a2") mode sig num137 = (Raise ValueError, num137)) /\
  decode (str "5a2") num137 = (Raise ValueError, num137) /\
  wdecode (str "5a2") num137 = (Raise ValueError, num137) /\
  (forall draws L sig,
      L > len (str "5a2") + 2 ->
      wencode draws (str "5a2") L sig num137 = (Raise ValueError, num137)).
Proof.
  apply (foreign_character_raises num137 (str "5a2") 97%N).
  - right. left. reflexivity.
  - cbv. intuition discriminate.
Defined.

(** X8 (construction).  [__init__] raises KeyError for a name that is not
    registered and ValueError for a key with a character outside the named
    alphabet; otherwise it builds an instance with that alphabet, no text,
    no signature, and key indices inside the alphabet that render back to
    the key string, one per character. *)
Theorem init_outcomes (name : string) (key : pystr) :
  (lookup DIZ name = None -> __init__ name key = Raise KeyError) /\
  (forall d ch, lookup DIZ name = Some d -> In ch key -> ~ In ch d ->
                __init__ name key = Raise ValueError) /\
  (forall d, lookup DIZ name = Some d -> Forall (fun ch => In ch d) key ->
             exists c,
               __init__ name key = Ok c /\ dictionary c = d /\
               text c = None /\ signature c = None /\
               Forall (in_range (len d)) (secretkey c) /\
               len (secretkey c) = len key /\
               chars d (secretkey c) = Some key).
Proof.
  repeat split.
  - intros H. unfold __init__. rewrite H. reflexivity.
  - intros d ch Hl Hin Hout. unfold __init__.
    rewrite Hl, (indices_None _ _ _ Hin Hout). reflexivity.
  - intros d Hl Hkey. destruct (indices_total _ _ Hkey) as [k Hk].
    exists {| dictionary := d; secretkey := k; text := None; signature := None |}.
    unfold __init__. rewrite Hl, Hk. simpl. repeat split.
    + eapply indices_range. exact Hk.
    + unfold len. rewrite (indices_length _ _ _ Hk). reflexivity.
    + apply chars_indices. exact Hk.
Qed.

Lemma init_outcomes_witness :
  (lookup DIZ "num" = None -> __init__ "num" (str "137") = Raise KeyError) /\
  (forall d ch, lookup DIZ "num" = Some d -> In ch (str "137") -> ~ In ch d ->
                __init__ "num" (str "137") = Raise ValueError) /\
  (forall d, lookup DIZ "num" = Some d ->
             Forall (fun ch => In ch d) (str "137") ->
             exists c,
               __init__ "num" (str "137") = Ok c /\ dictionary c = d /\
               text c = None /\ signature c = None /\
               Forall (in_range (len d)) (secretkey c) /\
               len (secretkey c) = len (str "137") /\
               chars d (secretkey c) = Some (str "137")).
Proof. exact (init_outcomes "num" (str "137")). Defined.

Lemma encode_Ok_indices (T : pystr) (mode sig : bool) (c c' : WhyCry) (s : pystr) :
  encode T mode sig c = (Ok s, c') -> exists p, indices (dictionary c) T = Some p.
Proof.
  intros H. unfold encode in H.
  apply bind_Ok_inv in H. destruct H as [t [c1 [Hb _]]].
  unfold _build_input in Hb.
  destruct (indices (dictionary c) T) as [p|]; [|discriminate].
  exists p. reflexivity.
Qed.

(** X9 (round trip, the other way).  On a cipher instance with a non-empty
    key, [decode] of any text over the alphabet returns a string that
    [encode] maps back to the text: the two transforms are inverse to each
    other in both orders. *)
Theorem encode_after_decode (c : WhyCry) (T : pystr) :
  is_instance c -> secretkey c <> [] ->
  Forall (fun ch => In ch (dictionary c)) T ->
  exists s c1 c2,
    decode T c = (Ok s, c1) /\ encode s true false c1 = (Ok T, c2).
Proof.
  intros Hinst Hk HT. pose proof (is_instance_wf c Hinst) as Hwf.
  destruct (encode_run false false T c Hwf Hk HT)
    as [p [s [c1 [Hp [Hdec [Hd1 [Hk1 [_ [_ Hidx]]]]]]]]].
  pose proof (wf_config c c1 Hd1 Hk1 Hwf) as Hwf1.
  destruct (encode_of_rendered true s
              (translated false (len (dictionary c)) (secretkey c) p) c1 Hwf1)
    as [r [c2 [Henc Hch]]].
  { rewrite Hk1. exact Hk. }
  { rewrite Hd1. exact Hidx. }
  rewrite Hd1, Hk1 in Hch.
  rewrite translated_inverse_rev in Hch
    by first [assumption | apply (wf_key c Hwf) | eapply indices_range; exact Hp].
  rewrite (chars_indices _ _ _ Hp) in Hch.
  exists s, c1, c2. split. exact Hdec. rewrite Henc. congruence.
Qed.

Lemma encode_after_decode_witness :
  exists s c1 c2,
    decode (str "582") num137 = (Ok s, c1) /\
    encode s true false c1 = (Ok (str "582"), c2).
Proof.
  apply (encode_after_decode num137 (str "582")).
  - exact num137_is_instance.
  - discriminate.
  - in_alphabet.
Defined.

(** X10 (shape of the ciphertext).  On a cipher instance with a non-empty
    key, a string [encode] returns, in either mode, has the length of the
    text and only characters of the alphabet, and two texts with the same
    ciphertext are the same text. *)
Theorem encode_length_alphabet_injective (c c1 c2 : WhyCry) (T1 T2 s1 s2 : pystr)
    (mode sig1 sig2 : bool) :
  is_instance c -> secretkey c <> [] ->
  encode T1 mode sig1 c = (Ok s1, c1) ->
  encode T2 mode sig2 c = (Ok s2, c2) ->
  len s1 = len T1 /\
  Forall (fun ch => In ch (dictionary c)) s1 /\
  (s1 = s2 -> T1 = T2).
Proof.
  intros Hinst Hk H1 H2. pose proof (is_instance_wf c Hinst) as Hwf.
  destruct (encode_Ok_indices _ _ _ _ _ _ H1) as [p1 Hp1].
  destruct (encode_Ok_indices _ _ _ _ _ _ H2) as [p2 Hp2].
  destruct (encode_run mode sig1 T1 c Hwf Hk (indices_In _ _ _ Hp1))
    as [q1 [r1 [d1 [Hq1 [Hr1 [_ [_ [_ [Hc1 Hi1]]]]]]]]].
  destruct (encode_run mode sig2 T2 c Hwf Hk (indices_In _ _ _ Hp2))
    as [q2 [r2 [d2 [Hq2 [Hr2 [_ [_ [_ [Hc2 Hi2]]]]]]]]].
  assert (q1 = p1) by congruence. assert (q2 = p2) by congruence.
  assert (r1 = s1) by congruence. assert (r2 = s2) by congruence.
  subst q1 q2 r1 r2.
  assert (Hr1' : Forall (in_range (len (dictionary c))) p1)
    by (eapply indices_range; exact Hp1).
  assert (Hr2' : Forall (in_range (len (dictionary c))) p2)
    by (eapply indices_range; exact Hp2).
  split; [|split].
  - unfold len. rewrite (chars_length _ _ _ Hc1).
    rewrite translated_length by exact Hk.
    rewrite (indices_length _ _ _ Hp1). reflexivity.
  - eapply chars_In. exact Hc1.
  - intros Hs. subst s2.
    assert (Ht : translated mode (len (dictionary c)) (secretkey c) p1 =
                 translated mode (len (dictionary c)) (secretkey c) p2)
      by congruence.
    assert (Hp : p1 = p2).
    { destruct mode.
      - rewrite <- (translated_inverse (len (dictionary c)) (secretkey c) p1)
          by first [assumption | apply (wf_key c Hwf)].
        rewrite <- (translated_inverse (len (dictionary c)) (secretkey c) p2)
          by first [assumption | apply (wf_key c Hwf)].
        rewrite Ht. reflexivity.
      - rewrite <- (translated_inverse_rev (len (dictionary c)) (secretkey c) p1)
          by first [assumption | apply (wf_key c Hwf)].
        rewrite <- (translated_inverse_rev (len (dictionary c)) (secretkey c) p2)
          by first [assumption | apply (wf_key c Hwf)].
        rewrite Ht. reflexivity. }
    subst p2.
    pose proof (chars_indices _ _ _ Hp1). pose proof (chars_indices _ _ _ Hp2).
    congruence.
Qed.

Lemma encode_length_alphabet_injective_witness :
  len (str "619") = len (str "582") /\
  Forall (fun ch => In ch NUM) (str "619") /\
  (str "619" = str "720" -> str "582" = str "693").
Proof.
  apply (encode_length_alphabet_injective num137
           (set_text [6; 1; 9] num137) (set_text [7; 2; 0] num137)
           (str "582") (str "693") (str "619") (str "720") true false false).
  - exact num137_is_instance.
  - discriminate.
  - reflexivity.
  - reflexivity.
Defined.

(** X11 (a key that hides nothing).  When every character of the secret
    key is the first character of the alphabet, so that every key index is
    0, [encode] returns the text itself, in both modes. *)
Theorem first_character_key_is_identity (c : WhyCry) (T : pystr) (mode sig : bool) :
  is_instance c -> secretkey c <> [] ->
  Forall (fun k => k = 0) (secretkey c) ->
  Forall (fun ch => In ch (dictionary c)) T ->
  exists c', encode T mode sig c = (Ok T, c').
Proof.
  intros Hinst Hk Hz HT. pose proof (is_instance_wf c Hinst) as Hwf.
  destruct (encode_run mode sig T c Hwf Hk HT)
    as [p [s [c' [Hp [Hrun [_ [_ [_ [Hch _]]]]]]]]].
  rewrite translated_zero_key in Hch
    by first [assumption | eapply indices_range; exact Hp].
  rewrite (chars_indices _ _ _ Hp) in Hch.
  exists c'. rewrite Hrun. congruence.
Qed.

Lemma first_character_key_is_identity_witness :
  exists c',
    encode (str "582") true false
      {| dictionary := NUM; secretkey := [0; 0]; text := None;
         signature := None |} = (Ok (str "582"), c').
Proof.
  apply (first_character_key_is_identity
           {| dictionary := NUM; secretkey := [0; 0]; text := None;
              signature := None |} (str "582") true false).
  - exists "num"%string, (str "00"). eexists. repeat split.
  - discriminate.
  - repeat constructor.
  - in_alphabet.
Defined.

Lemma chars_hd (d : pystr) (p : list Z) (T : pystr) :
  chars d p = Some T -> p <> [] -> getitem d (hd 0 p) = Some (hd 0%N T).
Proof.
  destruct p as [|x p]; [contradiction|]. simpl. intros H _.
  destruct (getitem d x) as [ch|]; [|discriminate].
  destruct (chars d p); [|discriminate]. inversion H. reflexivity.
Qed.

Lemma chars_last (d : pystr) (p : list Z) (T : pystr) :
  chars d p = Some T -> p <> [] -> getitem d (last p 0) = Some (last T 0%N).
Proof.
  revert T. induction p as [|x p IH]; intros T H Hne; [contradiction|].
  simpl in H.
  destruct (getitem d x) as [ch|] eqn:Eg; [|discriminate].
  destruct (chars d p) as [T'|] eqn:Ec; [|discriminate].
  inversion H. subst T. destruct p as [|y p].
  - simpl in Ec. inversion Ec. simpl. exact Eg.
  - specialize (IH T' eq_refl ltac:(discriminate)).
    destruct T' as [|b T'].
    + simpl in Ec. destruct (getitem d y); [|discriminate].
      destruct (chars d p); discriminate.
    + exact IH.
Qed.

(** X12 (what the padding hides from [decode]).  When [wencode] has
    returned [s] for a text [T] over the alphabet, the plain [decode] of
    [s] returns the text itself, between a copy of its first character and
    a copy of its last one, between two runs of disturbance characters
    that together make up the length [L]. *)
Theorem decode_of_wencoded_shows_text (c c1 : WhyCry) (T s : pystr) (L : Z)
    (sig : bool) (draws : list Q) :
  is_instance c -> secretkey c <> [] ->
  Forall (fun ch => In ch (dictionary c)) T ->
  Forall unit_draw draws -> L > len T + 2 ->
  wencode draws T L sig c = (Ok s, c1) ->
  exists pre post c2,
    decode s c1 = (Ok (pre ++ hd 0%N T :: T ++ last T 0%N :: post), c2) /\
    len pre + len post = L - (len T + 2).
Proof.
  intros Hinst Hk HT Hd HL Hrun. pose proof (is_instance_wf c Hinst) as Hwf.
  destruct (indices_total _ _ HT) as [p Hp].
  destruct (wencode_inv draws T p L sig c c1 s Hwf Hk Hp Hd HL Hrun)
    as [d1 [d2 [Hne [_ [_ [Hr [HlB [Hd1 [Hk1 Hidx]]]]]]]]].
  pose proof (wf_config c c1 Hd1 Hk1 Hwf) as Hwf1.
  destruct (encode_of_rendered false s _ c1 Hwf1
              ltac:(rewrite Hk1; exact Hk) ltac:(rewrite Hd1; exact Hidx))
    as [r [c2 [Hdec Hch]]].
  rewrite Hd1, Hk1 in Hch.
  rewrite translated_inverse in Hch
    by first [assumption | apply (wf_key c Hwf)].
  pose proof (chars_indices _ _ _ Hp) as HpT.
  unfold padded in Hch.
  apply chars_app in Hch. destruct Hch as [pre [mid [Hpre [Hmid Hr']]]].
  simpl in Hmid. rewrite (chars_hd _ _ _ HpT Hne) in Hmid.
  destruct (chars (dictionary c) (p ++ last p 0 :: d1)) as [tail|] eqn:Et;
    [|discriminate].
  apply chars_app in Et. destruct Et as [T' [end' [HT' [Hend Htail]]]].
  assert (T' = T) by congruence. subst T'.
  simpl in Hend. rewrite (chars_last _ _ _ HpT Hne) in Hend.
  destruct (chars (dictionary c) d1) as [post|] eqn:Epost; [|discriminate].
  inversion Hend. subst end'. inversion Hmid. subst mid tail r.
  exists pre, post, c2. split. exact Hdec.
  unfold padded in HlB.
  rewrite len_app, len_cons, len_app, len_cons in HlB.
  unfold len in *. rewrite length_rev in HlB.
  rewrite (chars_length _ _ _ Hpre), length_rev, (chars_length _ _ _ Epost).
  rewrite <- (indices_length _ _ _ Hp). lia.
Qed.

Lemma decode_of_wencoded_shows_text_witness :
  exists pre post c2,
    decode (str "172619331")
      (snd (wencode [1 # 2; 0 # 1; 4 # 9; 4 # 9; 0 # 1] (str "582") 9 false
              num137)) =
      (Ok (pre ++ hd 0%N (str "582") :: str "582" ++
           last (str "582") 0%N :: post), c2) /\
    len pre + len post = 9 - (len (str "582") + 2).
Proof.
  apply (decode_of_wencoded_shows_text num137 _ (str "582") (str "172619331")
           9 false [1 # 2; 0 # 1; 4 # 9; 4 # 9; 0 # 1]).
  - exact num137_is_instance.
  - discriminate.
  - in_alphabet.
  - repeat constructor; cbv; intuition discriminate.
  - reflexivity.
  - vm_compute. reflexivity.
Defined.

(** The padding branch on a non-empty buffer: it raises exactly when [cadd]
    does not convert to a double. *)
Lemma _wide_true_raises (draws : list Q) (L : Z) (p : list Z) (c : WhyCry) :
  text c = Some p -> p <> [] ->
  if float_of_int_ok (L - (len p + 2))
  then forall e c', _wide draws true L c <> (Raise e, c')
  else exists c', _wide draws true L c = (Raise OverflowError, c').
Proof.
  intros Ht Hp. destruct p as [|t0 p]; [contradiction|].
  assert (Hm : len ((t0 :: t0 :: p) ++ [last (t0 :: t0 :: p) 0]) =
               len (t0 :: p) + 2).
  { rewrite len_app, len_cons. unfold len at 2. simpl length. lia. }
  unfold _wide, bind, get_text. rewrite Ht. cbv zeta. rewrite Hm.
  destruct (float_of_int_ok (L - (len (t0 :: p) + 2))).
  - intros e c' H. destruct draws as [|u draws]; [discriminate|].
    destruct (parts _ _ _ _) as [t' [rest|]]; discriminate.
  - eexists. reflexivity.
Qed.

(** X13 ([wencode] raises only on overflow).  On a cipher instance with a
    non-empty key, for a non-empty text over the alphabet and
    [L > len(T) + 2]: when the number of characters to add,
    [L - (len(T) + 2)], converts to a double, no outcome of the draws makes
    [wencode] raise, and it returns a string unless the draws keep
    repeating the buffer's last element; from [2^1024 - 2^970] on, it
    raises OverflowError whatever is drawn. *)
Theorem wencode_raises_only_overflow (c : WhyCry) (T : pystr) (L : Z) (sig : bool)
    (draws : list Q) :
  is_instance c -> secretkey c <> [] ->
  T <> [] -> Forall (fun ch => In ch (dictionary c)) T ->
  Forall unit_draw draws -> L > len T + 2 ->
  (L - (len T + 2) < 2 ^ 1024 - 2 ^ 970 ->
   (exists s, fst (wencode draws T L sig c) = Ok s) \/
   fst (wencode draws T L sig c) = Starved) /\
  (2 ^ 1024 - 2 ^ 970 <= L - (len T + 2) ->
   fst (wencode draws T L sig c) = Raise OverflowError).
Proof.
  intros Hinst Hk HTne HT Hd HL. pose proof (is_instance_wf c Hinst) as Hwf.
  destruct (indices_total _ _ HT) as [p Hp].
  assert (Hlen : len p = len T).
  { unfold len. rewrite (indices_length _ _ _ Hp). reflexivity. }
  assert (Hpne : p <> []).
  { intros ->. destruct T; [contradiction|discriminate]. }
  assert (Hpr : Forall (in_range (len (dictionary c))) p).
  { eapply indices_range. exact Hp. }
  assert (Hstep : wencode draws T L sig c =
            (_wide draws true L ;;; _translate true ;;;
             (if sig then s <- _sign T ;; assign_signature s else ret tt) ;;;
             _output) (set_text p c)).
  { unfold wencode.
    replace (L >? len T + 2) with true by (symmetry; apply Z.gtb_lt; lia).
    rewrite (bind_Ok _ _ _ _ _ (_build_input_Ok T p c Hp)).
    unfold bind at 1. reflexivity. }
  rewrite Hstep.
  pose proof (_wide_true_raises draws L p (set_text p c) eq_refl Hpne) as Hr.
  rewrite Hlen in Hr. unfold float_of_int_ok in Hr.
  rewrite Z.abs_eq in Hr by lia.
  split.
  - intros Hb. apply Z.ltb_lt in Hb. rewrite Hb in Hr.
    destruct (_wide draws true L (set_text p c)) as [[[]|e|] c1] eqn:Hw.
    + left. rewrite (bind_Ok _ _ _ _ _ Hw).
      destruct (_wide_true_Ok draws L p (set_text p c) c1
                  (wf_set_text p c Hwf) eq_refl Hd Hpr ltac:(lia) Hw)
        as [d1 [d2 [Hc1 [_ [_ [_ [Hr' _]]]]]]].
      destruct (transform_sign_render true sig T (padded d2 p d1) c1)
        as [s [c2 [Hrun _]]];
        try (subst c1; assumption); try (subst c1; reflexivity).
      { subst c1. do 2 apply wf_set_text. exact Hwf. }
      exists s. rewrite Hrun. reflexivity.
    + exfalso. apply (Hr e c1). reflexivity.
    + right. rewrite (bind_Starved _ _ _ _ Hw). reflexivity.
  - intros Hb. apply Z.ltb_ge in Hb. rewrite Hb in Hr.
    destruct Hr as [c1 Hw]. rewrite (bind_Raise _ _ _ _ _ Hw). reflexivity.
Qed.

Lemma wencode_raises_only_overflow_witness :
  (9 - (len (str "582") + 2) < 2 ^ 1024 - 2 ^ 970 ->
   (exists s, fst (wencode [1 # 2; 5 # 9] (str "582") 9 true num137) = Ok s) \/
   fst (wencode [1 # 2; 5 # 9] (str "582") 9 true num137) = Starved) /\
  (2 ^ 1024 - 2 ^ 970 <= 9 - (len (str "582") + 2) ->
   fst (wencode [1 # 2; 5 # 9] (str "582") 9 true num137) =
   Raise OverflowError).
Proof.
  apply (wencode_raises_only_overflow num137 (str "582") 9 true [1 # 2; 5 # 9]).
  - exact num137_is_instance.
  - discriminate.
  - discriminate.
  - in_alphabet.
  - repeat constructor; cbv; intuition discriminate.
  - reflexivity.
Defined.

(** For "582" the padding adds [L - 5] characters.  At
    [L = 2^1024 - 2^970 + 5], the first length at which that number does
    not convert to a double, and at [L = 2^1024 + 3], [wencode] raises
    OverflowError and leaves the payload with its two markers in the
    buffer. *)
Example wencode_overflow :
  fst (wencode [0 # 1; 1 # 2] (str "582") (2 ^ 1024 - 2 ^ 970 + 5) false num137) =
    Raise OverflowError /\
  fst (wencode [0 # 1; 1 # 2] (str "582") (2 ^ 1024 + 3) false num137) =
    Raise OverflowError /\
  text (snd (wencode [0 # 1; 1 # 2] (str "582") (2 ^ 1024 + 3) false num137)) =
    Some [5; 5; 8; 2; 2].
Proof. vm_compute. repeat split. Qed.

Lemma unwide_pass_shorter (t t' : list Z) :
  unwide_pass t = Some t' -> (length t' < length t)%nat.
Proof.
  unfold unwide_pass. destruct (scan t) as [x|] eqn:E; [|discriminate].
  intros H. assert (Ht' : t' = rev (skipn (S x) t)) by congruence.
  clear H. subst t'.
  destruct (scan_Some t x E) as [l [a [r [Ht [Hl _]]]]].
  rewrite length_rev, length_skipn. subst t. rewrite length_app. simpl. lia.
Qed.

Lemma unwide_length (t : list Z) :
  len (unwide t) <= Z.max 0 (len t - 2).
Proof.
  unfold unwide. cbn [unwide_passes].
  destruct (unwide_pass t) as [t1|] eqn:E1; [|unfold len; simpl; lia].
  destruct (unwide_pass t1) as [t2|] eqn:E2; [|unfold len; simpl; lia].
  apply unwide_pass_shorter in E1. apply unwide_pass_shorter in E2.
  unfold len. lia.
Qed.

(** X14 ([wdecode] shortens).  On a cipher instance with a non-empty key,
    [wdecode] of a string over the alphabet returns a string at least two
    characters shorter than its argument, or the empty string; a string of
    fewer than three characters is always decoded to the empty string. *)
Theorem wdecode_shortens (c : WhyCry) (s : pystr) :
  is_instance c -> secretkey c <> [] ->
  Forall (fun ch => In ch (dictionary c)) s ->
  exists r c',
    wdecode s c = (Ok r, c') /\
    len r <= Z.max 0 (len s - 2) /\
    (len s < 3 -> r = []).
Proof.
  intros Hinst Hk Hs. pose proof (is_instance_wf c Hinst) as Hwf.
  destruct (indices_total _ _ Hs) as [B HB].
  destruct (wdecode_run s B c Hwf Hk HB) as [r [c' [Hrun Hch]]].
  exists r, c'. split. exact Hrun.
  assert (Hlen : len r <= Z.max 0 (len s - 2)).
  { pose proof (unwide_length
                  (translated false (len (dictionary c)) (secretkey c) B)) as Hu.
    unfold len in *. rewrite (chars_length _ _ _ Hch).
    rewrite translated_length in Hu by exact Hk.
    rewrite (indices_length _ _ _ HB) in Hu. exact Hu. }
  split. exact Hlen.
  intros Hshort. destruct r as [|ch r]. reflexivity.
  rewrite len_cons in Hlen. pose proof (len_nonneg r). lia.
Qed.

Lemma wdecode_shortens_witness :
  exists r c',
    wdecode (str "61") num137 = (Ok r, c') /\
    len r <= Z.max 0 (len (str "61") - 2) /\
    (len (str "61") < 3 -> r = []).
Proof.
  apply (wdecode_shortens num137 (str "61")).
  - exact num137_is_instance.
  - discriminate.
  - in_alphabet.
Defined.

Lemma chars_draws (d : pystr) (l : list Z) :
  Forall (in_range (len d)) l ->
  exists s, chars d l = Some s.
Proof.
  induction 1 as [|x l Hx Hl [s Hs]]; simpl.
  - eexists. reflexivity.
  - unfold getitem. unfold in_range in Hx.
    replace ((0 <=? x) && (x <? len d)) with true
      by (symmetry; apply andb_true_intro; split;
          [apply Z.leb_le | apply Z.ltb_lt]; lia).
    destruct (nth_error d (Z.to_nat x)) as [ch|] eqn:E.
    + rewrite Hs. eexists. reflexivity.
    + apply nth_error_None in E. unfold len in Hx. lia.
Qed.

(** X15 ([token] makes keys).  For a registered alphabet and values of
    [randbelow(n)] inside [0, n), [token] returns a string of [length]
    characters of the alphabet (none for a negative [length]); [__init__]
    accepts it as a secret key, and the key indices of the instance are the
    values drawn, in order. *)
Theorem token_is_a_key (rand : nat -> Z) (name : string) (d : pystr) (length : Z) :
  lookup DIZ name = Some d ->
  (forall i, in_range (len d) (rand i)) ->
  exists tok c,
    token rand name length = Ok tok /\
    len tok = Z.max 0 length /\
    Forall (fun ch => In ch d) tok /\
    __init__ name tok = Ok c /\
    secretkey c = map rand (seq 0 (Z.to_nat length)).
Proof.
  intros Hl Hrand.
  set (l := map rand (seq 0 (Z.to_nat length))).
  assert (Hr : Forall (in_range (len d)) l).
  { apply Forall_forall. intros x Hx. unfold l in Hx.
    apply in_map_iff in Hx. destruct Hx as [i [<- _]]. apply Hrand. }
  pose proof (lookup_DIZ_ok _ _ Hl) as Hok. unfold alphabet_ok in Hok.
  apply andb_prop in Hok. destruct Hok as [Hok _].
  apply andb_prop in Hok. destruct Hok as [Hnd _].
  apply nodupb_NoDup in Hnd.
  destruct (indices_chars d l Hnd Hr) as [tok [Hc Hi]].
  exists tok, {| dictionary := d; secretkey := l; text := None; signature := None |}.
  split. { unfold token. rewrite Hl. fold l. rewrite Hc. reflexivity. }
  split.
  { unfold len. rewrite (chars_length _ _ _ Hc). unfold l.
    rewrite length_map, length_seq. lia. }
  split. { eapply chars_In. exact Hc. }
  split. { unfold __init__. rewrite Hl, Hi. reflexivity. }
  reflexivity.
Qed.

Lemma token_is_a_key_witness :
  exists tok c,
    token (fun i => Z.of_nat i mod 10) "num" 12 = Ok tok /\
    len tok = Z.max 0 12 /\
    Forall (fun ch => In ch NUM) tok /\
    __init__ "num" tok = Ok c /\
    secretkey c = map (fun i => Z.of_nat i mod 10) (seq 0 (Z.to_nat 12)).
Proof.
  apply (token_is_a_key (fun i => Z.of_nat i mod 10) "num" NUM 12).
  - reflexivity.
  - intros i. unfold in_range. change (len NUM) with 10.
    apply Z.mod_pos_bound. lia.
Defined.

(** [token] with a name that is not registered raises KeyError, like
    [__init__]. *)
Example token_unknown_name : token (fun _ => 0) "base64" 4 = Raise KeyError.
Proof. reflexivity. Qed.

Lemma map2_app_r {A B C : Type} (f : A -> B -> C) (t : list A) (l e : list B) :
  (length t <= length l)%nat -> map2 f t (l ++ e) = map2 f t l.
Proof.
  revert l. induction t as [|x t IH]; intros l H; simpl.
  - reflexivity.
  - destruct l as [|y l]; simpl in *. lia. f_equal. apply IH. lia.
Qed.

Lemma concat_repeat_add {A : Type} (s : list A) (a b : nat) :
  concat (repeat s (a + b)) = concat (repeat s a) ++ concat (repeat s b).
Proof. rewrite repeat_app, concat_app. reflexivity. Qed.

(** Only the part of the repeated key that lies over the text counts. *)
Lemma map2_stream_indep {A C : Type} (f : A -> Z -> C) (t : list A) (s : list Z)
    (n1 n2 : nat) :
  (length t <= n1 * length s)%nat -> (length t <= n2 * length s)%nat ->
  map2 f t (concat (repeat s n1)) = map2 f t (concat (repeat s n2)).
Proof.
  intros H1 H2. destruct (Nat.le_ge_cases n1 n2) as [Hle|Hle].
  - replace n2 with (n1 + (n2 - n1))%nat by lia.
    rewrite concat_repeat_add, map2_app_r. reflexivity.
    rewrite concat_repeat_length. exact H1.
  - replace n1 with (n2 + (n1 - n2))%nat by lia.
    rewrite concat_repeat_add, map2_app_r. reflexivity.
    rewrite concat_repeat_length. exact H2.
Qed.

Lemma concat_repeat_double {A : Type} (s : list A) (n : nat) :
  concat (repeat (s ++ s) n) = concat (repeat s (2 * n)).
Proof.
  induction n as [|n IH]. reflexivity.
  replace (2 * S n)%nat with (S (S (2 * n))) by lia.
  simpl repeat. simpl concat. rewrite IH, <- app_assoc. reflexivity.
Qed.

Lemma translated_double_key (mode : bool) (d : Z) (s t : list Z) :
  s <> [] -> translated mode d (s ++ s) t = translated mode d s t.
Proof.
  intros Hne.
  assert (Hne2 : s ++ s <> []) by (destruct s; [contradiction|discriminate]).
  pose proof (list_mul_covers s t Hne) as H1.
  pose proof (list_mul_covers (s ++ s) t Hne2) as H2.
  unfold translated, list_mul in *.
  rewrite concat_repeat_length in H1. rewrite concat_repeat_length in H2.
  rewrite concat_repeat_double in *.
  rewrite length_app in H2.
  assert (Hs : forall (f : Z -> Z -> Z),
             map2 f t (concat (repeat s
                (2 * Z.to_nat (len t / len (s ++ s) + 1)))) =
             map2 f t (concat (repeat s (Z.to_nat (len t / len s + 1))))).
  { intros f. apply map2_stream_indep; lia. }
  destruct mode; rewrite Hs; reflexivity.
Qed.

(** X16 (the key is used periodically).  Two instances over the same
    alphabet, one with a key and the other with that key written twice,
    return the same string for every text, in both modes of [encode]:
    repeating the key does not change the cipher. *)
Theorem doubled_key_encodes_alike (c1 c2 : WhyCry) (T : pystr) (mode sig : bool) :
  is_instance c1 -> secretkey c1 <> [] ->
  dictionary c2 = dictionary c1 ->
  secretkey c2 = secretkey c1 ++ secretkey c1 ->
  Forall (fun ch => In ch (dictionary c1)) T ->
  exists s c1' c2',
    encode T mode sig c1 = (Ok s, c1') /\ encode T mode sig c2 = (Ok s, c2').
Proof.
  intros Hinst Hk Hd Hk2 HT. pose proof (is_instance_wf c1 Hinst) as Hwf.
  assert (Hwf2 : wf c2).
  { destruct Hwf as [W1 W2 W3 W4]. constructor; rewrite ?Hd, ?Hk2; try assumption.
    apply Forall_app. split; assumption. }
  assert (Hk2' : secretkey c2 <> []).
  { rewrite Hk2. destruct (secretkey c1); [contradiction|discriminate]. }
  destruct (encode_run mode sig T c1 Hwf Hk HT)
    as [p [s [c1' [Hp [Hrun [_ [_ [_ [Hch _]]]]]]]]].
  destruct (encode_run mode sig T c2 Hwf2 Hk2' ltac:(rewrite Hd; exact HT))
    as [p2 [s2 [c2' [Hp2 [Hrun2 [_ [_ [_ [Hch2 _]]]]]]]]].
  rewrite Hd, Hk2 in *. assert (p2 = p) by congruence. subst p2.
  rewrite translated_double_key in Hch2 by exact Hk.
  assert (s2 = s) by congruence. subst s2.
  exists s, c1', c2'. split; assumption.
Qed.

Lemma doubled_key_encodes_alike_witness :
  exists s c1' c2',
    encode (str "5820469") true false num137 = (Ok s, c1') /\
    encode (str "5820469") true false
      {| dictionary := NUM; secretkey := [1; 3; 7; 1; 3; 7]; text := None;
         signature := None |} = (Ok s, c2').
Proof.
  apply (doubled_key_encodes_alike num137
           {| dictionary := NUM; secretkey := [1; 3; 7; 1; 3; 7]; text := None;
              signature := None |} (str "5820469") true false).
  - exact num137_is_instance.
  - discriminate.
  - reflexivity.
  - reflexivity.
  - in_alphabet.
Defined.

(** X17 (key sensitivity).  Two instances over the same alphabet whose
    keys differ at a position [j] that lies inside both keys and inside
    the text never return the same ciphertext for that text: the two
    strings compare unequal. *)
Theorem different_keys_encode_differently (c1 c2 c1' c2' : WhyCry)
    (T s1 s2 : pystr) (sig : bool) (j : Z) :
  is_instance c1 -> is_instance c2 -> dictionary c2 = dictionary c1 ->
  0 <= j < len T -> j < len (secretkey c1) -> j < len (secretkey c2) ->
  nth (Z.to_nat j) (secretkey c1) 0 <> nth (Z.to_nat j) (secretkey c2) 0 ->
  encode T true sig c1 = (Ok s1, c1') ->
  encode T true sig c2 = (Ok s2, c2') ->
  pystr_eqb s1 s2 = false.
Proof.
  intros Hi1 Hi2 Hd Hj Hj1 Hj2 Hne H1 H2.
  apply pystr_eqb_neq. intros Heq. subst s2.
  pose proof (is_instance_wf c1 Hi1) as Hwf1.
  pose proof (is_instance_wf c2 Hi2) as Hwf2.
  assert (Hk1 : secretkey c1 <> []).
  { intros E. rewrite E in Hj1. unfold len in Hj1. simpl in Hj1. lia. }
  assert (Hk2 : secretkey c2 <> []).
  { intros E. rewrite E in Hj2. unfold len in Hj2. simpl in Hj2. lia. }
  destruct (encode_Ok_indices _ _ _ _ _ _ H1) as [p Hp].
  destruct (encode_run true sig T c1 Hwf1 Hk1 (indices_In _ _ _ Hp))
    as [q1 [r1 [e1 [Hq1 [Hr1 [_ [_ [_ [_ Hx1]]]]]]]]].
  destruct (encode_run true sig T c2 Hwf2 Hk2
              ltac:(rewrite Hd; exact (indices_In _ _ _ Hp)))
    as [q2 [r2 [e2 [Hq2 [Hr2 [_ [_ [_ [_ Hx2]]]]]]]]].
  rewrite Hd in *.
  assert (q1 = p) by congruence. assert (q2 = p) by congruence.
  assert (r1 = s1) by congruence. assert (r2 = s1) by congruence.
  subst q1 q2 r1 r2.
  assert (Ht : translated true (len (dictionary c1)) (secretkey c1) p =
               translated true (len (dictionary c1)) (secretkey c2) p)
    by congruence.
  assert (Hpr : Forall (in_range (len (dictionary c1))) p)
    by (eapply indices_range; exact Hp).
  assert (Hjp : 0 <= j < len p).
  { unfold len in *. rewrite (indices_length _ _ _ Hp). exact Hj. }
  pose proof (wf_key c1 Hwf1) as Hr1'.
  pose proof (wf_key c2 Hwf2) as Hr2'. rewrite Hd in Hr2'.
  pose proof (translated_nth true _ _ _ j Hk1 Hr1' Hpr Hjp) as N1.
  pose proof (translated_nth true _ _ _ j Hk2 Hr2' Hpr Hjp) as N2.
  rewrite Ht in N1. rewrite N1 in N2.
  rewrite (Z.mod_small j (len (secretkey c1))) in N2 by lia.
  rewrite (Z.mod_small j (len (secretkey c2))) in N2 by lia.
  assert (Hx : in_range (len (dictionary c1)) (nth (Z.to_nat j) p 0)).
  { apply Forall_nth. exact Hpr. unfold len in Hjp. lia. }
  assert (Ha : in_range (len (dictionary c1)) (nth (Z.to_nat j) (secretkey c1) 0)).
  { apply Forall_nth. exact Hr1'. unfold len in Hj1. lia. }
  assert (Hb : in_range (len (dictionary c1)) (nth (Z.to_nat j) (secretkey c2) 0)).
  { apply Forall_nth. exact Hr2'. unfold len in Hj2. lia. }
  rewrite <- !wrap_add_mod in N2 by assumption.
  unfold wrap_add, in_range in *.
  destruct (_ <? _) eqn:E1 in N2; destruct (_ <? _) eqn:E2 in N2;
    try apply Z.ltb_lt in E1; try apply Z.ltb_ge in E1;
    try apply Z.ltb_lt in E2; try apply Z.ltb_ge in E2; lia.
Qed.

Lemma different_keys_encode_differently_witness :
  pystr_eqb (str "619") (str "629") = false.
Proof.
  apply (different_keys_encode_differently num137
           {| dictionary := NUM; secretkey := [1; 4; 7]; text := None;
              signature := None |}
           (set_text [6; 1; 9] num137)
           (set_text [6; 2; 9]
              {| dictionary := NUM; secretkey := [1; 4; 7]; text := None;
                 signature := None |})
           (str "582") (str "619") (str "629") false 1).
  - exact num137_is_instance.
  - exists "num"%string, (str "147"). eexists. repeat split.
  - reflexivity.
  - split; reflexivity || discriminate.
  - reflexivity.
  - reflexivity.
  - discriminate.
  - reflexivity.
  - reflexivity.
Defined.
